(** * tb-email-collator: embedding and de-duplication pipeline

    A shallow embedding of [modules/utils.js] (RateLimiter, EmbeddingCache),
    [modules/embeddings.js] (EmbeddingService) and [modules/deduplication.js]
    (Deduplicator), with the properties of the design document proved or
    refuted on it.

    JavaScript numbers are IEEE 754 binary64: embedding components, the
    similarity and the threshold are primitive floats, so [cosineSimilarity]
    computes what the engine computes.  Millisecond clock readings and
    lengths are integers far below 2^53 and are kept in [Z] and [nat]. *)

From Stdlib Require Import ZArith Lia Floats Ascii.
From stdpp Require Import base option list strings sorting.

Local Open Scope Z_scope.
Local Open Scope nat_scope.

(** ** Messages

    A message object as [collator.js] builds it ([extractMessageContent]),
    with the [embedding] property that [generateEmbeddingsForMessages] adds.
    The type of the embedding is a parameter: the service stores whatever
    the provider's JSON holds, the de-duplicator is documented on
    [number[]].  A character of [body] stands for one UTF-16 code unit, so
    that [String.length] is the [length] of the JavaScript string. *)

Record Message (E : Type) : Type := mkMessage {
  id : Z;
  subject : string;
  date : string;
  from : string;
  body : string;
  embedding : E
}.
Arguments mkMessage {E} _ _ _ _ _ _.
Arguments id {E} _.
Arguments subject {E} _.
Arguments date {E} _.
Arguments from {E} _.
Arguments body {E} _.
Arguments embedding {E} _.

(** [{ ...message, embedding }] *)
Definition with_embedding {E F : Type} (m : Message E) (e : F) : Message F :=
  mkMessage (id m) (subject m) (date m) (from m) (body m) e.

(** ** deduplication.js *)

Module Deduplicator.

(** An embedding as the de-duplicator is documented to receive it: [None]
    is [null] or [undefined] (falsy), [Some v] an array of numbers (truthy,
    also when empty). *)
Definition Embedding : Type := option (list float).
Definition Msg : Type := Message Embedding.

(** The body of the [for] loop of [cosineSimilarity], over the two arrays
    in step; the accumulators are [dotProduct], [normA] and [normB]. *)
Fixpoint accumulate (vecA vecB : list float) (dotProduct normA normB : float)
  : float * float * float :=
  match vecA, vecB with
  | a :: vecA', b :: vecB' =>
      accumulate vecA' vecB'
        (dotProduct + a * b)%float (normA + a * a)%float (normB + b * b)%float
  | _, _ => (dotProduct, normA, normB)
  end.

Definition cosineSimilarity (vecA vecB : Embedding) : float :=
  match vecA, vecB with
  | Some a, Some b =>
      if negb (length a =? length b) then 0%float
      else
        let '(dotProduct, normA, normB) := accumulate a b 0%float 0%float 0%float in
        if (normA =? 0)%float || (normB =? 0)%float then 0%float
        else (dotProduct / (PrimFloat.sqrt normA * PrimFloat.sqrt normB))%float
  | _, _ => 0%float
  end.

(** [similarity > this.threshold] *)
Definition similar (threshold : float) (a b : Embedding) : bool :=
  (threshold <? cosineSimilarity a b)%float.

(** Reading [messages[i]] and [isDuplicate[i]].  Every index the loops use
    is below [messages.length]; the default of the total lookup is never
    read. *)
Definition no_message : Msg := mkMessage 0%Z "" "" "" "" None.
Definition message_at (messages : list Msg) (i : nat) : Msg :=
  default no_message (messages !! i).
Definition marked (isDuplicate : list bool) (i : nat) : bool :=
  default false (isDuplicate !! i).

(** [!messages[i].embedding] is false for every array. *)
Definition has_embedding (m : Msg) : bool := bool_decide (is_Some (embedding m)).

(** The inner loop for a fixed [i], over the indices [j] still to visit.
    [continue] goes on with the rest, [break] returns at once. *)
Fixpoint scan (threshold : float) (messages : list Msg) (i : nat)
    (js : list nat) (isDuplicate : list bool) : list bool :=
  match js with
  | [] => isDuplicate
  | j :: js' =>
      if marked isDuplicate j || negb (has_embedding (message_at messages j))
      then scan threshold messages i js' isDuplicate
      else if similar threshold (embedding (message_at messages i))
                                (embedding (message_at messages j))
      then
        if String.length (body (message_at messages j))
             <? String.length (body (message_at messages i))
        then scan threshold messages i js' (<[j:=true]> isDuplicate)
        else <[i:=true]> isDuplicate
      else scan threshold messages i js' isDuplicate
  end.

(** One turn of the outer loop. *)
Definition visit (threshold : float) (messages : list Msg)
    (isDuplicate : list bool) (i : nat) : list bool :=
  if marked isDuplicate i || negb (has_embedding (message_at messages i))
  then isDuplicate
  else scan threshold messages i
         (seq (S i) (length messages - S i)) isDuplicate.

(** The array [isDuplicate] after the turns [0 .. n-1] of the outer loop. *)
Definition marks_upto (threshold : float) (messages : list Msg) (n : nat)
  : list bool :=
  foldl (visit threshold messages) (replicate (length messages) false) (seq 0 n).

Definition marks (threshold : float) (messages : list Msg) : list bool :=
  marks_upto threshold messages (length messages).

(** The last loop: push every message that is not marked. *)
Definition collect (messages : list Msg) (isDuplicate : list bool) : list Msg :=
  foldl (fun uniqueMessages i =>
           if marked isDuplicate i then uniqueMessages
           else uniqueMessages ++ [message_at messages i])
        [] (seq 0 (length messages)).

(** [new Deduplicator(threshold).deduplicate(messages)].  The array
    [messageEmbeddings] the source builds first is never read. *)
Definition deduplicate (threshold : float) (messages : list Msg) : list Msg :=
  collect messages (marks threshold messages).

(** *** Notions the properties are stated with *)

(** The last loop, by recursion on the two arrays. *)
Fixpoint keep (messages : list Msg) (isDuplicate : list bool) : list Msg :=
  match messages, isDuplicate with
  | [], _ => []
  | _, [] => messages
  | m :: messages', d :: isDuplicate' =>
      if d then keep messages' isDuplicate' else m :: keep messages' isDuplicate'
  end.

(** An embedding that is absent or empty. *)
Definition degenerate (e : Embedding) : Prop := e = None \/ e = Some [].

(** No two messages left unmarked after the turns [0 .. n-1] are similar,
    when the earlier one had its turn. *)
Definition separated (threshold : float) (messages : list Msg) (n : nat)
    (D : list bool) : Prop :=
  forall i j, i < n -> i < j < length messages ->
    marked D i = false -> marked D j = false ->
    has_embedding (message_at messages i) = true ->
    has_embedding (message_at messages j) = true ->
    similar threshold (embedding (message_at messages i))
                      (embedding (message_at messages j)) = false.

(** Every mark has a cause: a similarity above the threshold in which the
    marked message takes part. *)
Definition caused (threshold : float) (messages : list Msg) (k : nat) : Prop :=
  exists e : Embedding,
    similar threshold (embedding (message_at messages k)) e = true \/
    similar threshold e (embedding (message_at messages k)) = true.

(** *** Sample documents *)

(** A body of [n] characters. *)
Fixpoint body_of_length (n : nat) : string :=
  match n with
  | O => ""
  | S n' => String.append "x" (body_of_length n')
  end.

Definition document (n : Z) (len : nat) (e : list float) : Msg :=
  mkMessage n "subject" "2024-01-01T00:00:00Z" "sender@example.org"
            (body_of_length len) (Some e).

#[warnings="-inexact-float"] Definition default_threshold : float := 0.95%float.

(** The scenario of the design document. *)
#[warnings="-inexact-float"] Definition scenario : list Msg :=
  [ document 1 100 [1; 0]%float;
    document 2 50 [1; 0.01]%float;
    document 3 80 [0; 1]%float ].

(** Three directions 15 degrees apart: the first is similar to both of the
    others, which are not similar to each other. *)
#[warnings="-inexact-float"] Definition fan : list Msg :=
  [ document 1 10 [1; 0]%float;
    document 2 20 [0.9659; 0.2588]%float;
    document 3 5 [0.9659; -0.2588]%float ].

(** The rule for a pair read over all pairs of a list: of two embedded
    messages [i < j] that are similar, the one a comparison would mark (the
    shorter, [i] on equal lengths) is marked when [deduplicate] is done. *)
Definition marks_pair (threshold : float) (messages : list Msg) (i j : nat) : Prop :=
  i < j < length messages ->
  has_embedding (message_at messages i) = true ->
  has_embedding (message_at messages j) = true ->
  similar threshold (embedding (message_at messages i))
                    (embedding (message_at messages j)) = true ->
  if String.length (body (message_at messages j))
       <? String.length (body (message_at messages i))
  then marked (marks threshold messages) j = true
  else marked (marks threshold messages) i = true.

(** The scenario of the design document with a message without embedding
    in front and one with an empty embedding at the end. *)
Definition mixed : list Msg :=
  mkMessage 0 "subject" "2024-01-01T00:00:00Z" "sender@example.org"
            (body_of_length 60) None
  :: scenario ++ [document 4 70 []].


(** A vector whose components are all zero, of either sign. *)
Definition all_zero (v : list float) : Prop :=
  Forall (fun x => x = 0%float \/ x = (-0)%float) v.

(** Message [k] has a partner in the list: an embedded message [o] that is
    similar to it, compared in the order of the list, with a body that is
    strictly longer when [o] comes first and at least as long when [o]
    comes later. *)
Definition has_partner (threshold : float) (messages : list Msg) (k : nat) : Prop :=
  exists o, o < length messages /\
    has_embedding (message_at messages k) = true /\
    has_embedding (message_at messages o) = true /\
    ((o < k /\
      similar threshold (embedding (message_at messages o))
                        (embedding (message_at messages k)) = true /\
      String.length (body (message_at messages k))
        < String.length (body (message_at messages o)))
     \/
     (k < o /\
      similar threshold (embedding (message_at messages k))
                        (embedding (message_at messages o)) = true /\
      String.length (body (message_at messages k))
        <= String.length (body (message_at messages o)))).

(** Two directions at a right angle. *)
Definition apart : list Msg :=
  [ document 1 30 [1; 0]%float; document 2 40 [0; 1]%float ].
End Deduplicator.

(** ** The host: clock, timers and network

    [Date.now()], [setTimeout] and [fetch] belong to the host.  The host is
    an environment [Env]: how late the [k]-th suspension resumes and what the
    network answers to the request made there.  Time never runs backwards:
    lateness is a natural number of milliseconds. *)

#[warnings="-register-all"] Inductive JSON : Type :=
  | JNull
  | JBool (b : bool)
  | JNumber (x : float)
  | JString (s : string)
  | JArray (items : list JSON)
  | JObject (members : list (string * JSON)).

(** A JavaScript value as this code meets it: [None] is [undefined]. *)
Definition Value : Type := option JSON.
Definition undefined : Value := None.
Definition null : Value := Some JNull.

Record Request : Type := mkRequest {
  url : string;
  model : string;
  input : string
}.

(** A response: [response_text] is what [response.text()] resolves to and
    [json] what [response.json()] resolves to, [None] when the body is not
    JSON and the promise rejects. *)
Record Response : Type := mkResponse {
  ok : bool;
  status : Z;
  response_text : string;
  json : option JSON
}.

Inductive FetchResult : Type :=
  | Rejected
  | Responded (response : Response).

Record Env : Type := mkEnv {
  lateness : nat -> N;
  respond : nat -> Request -> FetchResult
}.

Record World : Type := mkWorld {
  now : Z;
  suspensions : nat
}.

(** The caller is suspended for at least [ms] milliseconds. *)
Definition pause (env : Env) (ms : Z) (w : World) : World :=
  mkWorld (now w + Z.max 0 ms + Z.of_N (lateness env (suspensions w)))%Z
          (S (suspensions w)).

(** The largest delay a timer waits for: the delay of a timer is a 32-bit
    signed integer. *)
Definition max_delay : Z := 2147483647%Z.

(** The delay a timer waits for when it is asked for [waitTime]
    milliseconds.  A negative delay counts as 0, and a number above
    [max_delay] does not fit: the timer then fires without the delay it was
    asked for, as soon as the host gets to it. *)
Definition timer_delay (waitTime : Z) : Z :=
  if bool_decide (0 <= waitTime <= max_delay)%Z then waitTime else 0%Z.

(** [await new Promise(resolve => setTimeout(resolve, waitTime))] *)
Definition setTimeout (env : Env) (waitTime : Z) (w : World) : World :=
  pause env (timer_delay waitTime) w.

(** [await fetch(url, ...)] *)
Definition fetch (env : Env) (request : Request) (w : World) : FetchResult * World :=
  (respond env (suspensions w) request, pause env 0 w).

(** [crypto.subtle.digest] is the host's too; the cache and the service take
    the function from a text to its key as a parameter.  [digest] is a
    stand-in for it with one key per text. *)
Definition digest (text : string) : string := text.

(** ** utils.js: RateLimiter *)

Module RateLimiter.

Record t : Type := mk {
  maxRequests : nat;
  timeWindow : Z;
  requestTimestamps : list Z
}.

Definition new (maxRequests : nat) (timeWindowMs : Z) : t :=
  mk maxRequests timeWindowMs [].

Definition with_timestamps (rl : t) (ts : list Z) : t :=
  mk (maxRequests rl) (timeWindow rl) ts.

(** [this.requestTimestamps.filter(t => now - t < this.timeWindow)] *)
Definition recent (rl : t) (now : Z) : list Z :=
  filter (fun t => (now - t < timeWindow rl)%Z) (requestTimestamps rl).

(** [throttle] calls itself after the timer; [fuel] bounds the number of
    calls and [None] says the caller is still waiting when it runs out.
    With no timestamp left, [oldestRequest] is [undefined] and the delay is
    not a number: the timer fires at once. *)
Fixpoint throttle (env : Env) (fuel : nat) (rl : t) (w : World)
  : option (t * World) :=
  match fuel with
  | O => None
  | S fuel' =>
      let ts := recent rl (now w) in
      if bool_decide (maxRequests rl <= length ts) then
        let waitTime :=
          match head ts with
          | Some oldestRequest => (timeWindow rl - (now w - oldestRequest) + 100)%Z
          | None => 0%Z
          end in
        throttle env fuel' (with_timestamps rl ts) (setTimeout env waitTime w)
      else Some (with_timestamps rl (ts ++ [now w]), w)
  end.

(** A caller that acquires [n] times, one acquisition after the other, doing
    something else in between.  The result is the log of the admissions
    granted: the clock reading each one recorded. *)
Fixpoint acquisitions (env : Env) (fuel : nat) (n : nat) (rl : t) (w : World)
  : list Z :=
  match n with
  | O => []
  | S n' =>
      match throttle env fuel rl (pause env 0 w) with
      | None => []
      | Some (rl', w') => now w' :: acquisitions env fuel n' rl' w'
      end
  end.

(** The admissions of [log] inside the trailing window of length [window]
    that ends at [T]: those with [T - window < t <= T], the filter of
    [throttle] read at time [T]. *)
Definition admitted_within (window T : Z) (log : list Z) : list Z :=
  filter (fun t => (T - t < window)%Z /\ (t <= T)%Z) log.

(** The timestamps of [l] that the filter of [throttle] keeps at time
    [now]. *)
Definition fresh (window now : Z) (l : list Z) : list Z :=
  filter (fun t => (now - t < window)%Z) l.

(** The limiter remembers every admission of [log] that is still inside
    the window. *)
Definition synced (rl : t) (w : World) (log : list Z) : Prop :=
  fresh (timeWindow rl) (now w) log
  = fresh (timeWindow rl) (now w) (requestTimestamps rl).

(** No trailing window holds more admissions of [log] than the limiter
    allows. *)
Definition bounded (rl : t) (log : list Z) : Prop :=
  forall T, (length (admitted_within (timeWindow rl) T log) <= maxRequests rl)%nat.


(** A limiter that admits at least one request and holds no more
    timestamps than it admits, none of them in the future, and whose window
    with the buffer of 100 ms is a delay a timer waits for. *)
Definition steady (rl : t) (w : World) : Prop :=
  (0 < maxRequests rl)%nat /\
  (length (requestTimestamps rl) <= maxRequests rl)%nat /\
  (timeWindow rl + 100 <= max_delay)%Z /\
  Forall (fun t => (t <= now w)%Z) (requestTimestamps rl).

(** The timestamps are clock readings of the past, oldest first. *)
Definition chronological (rl : t) (w : World) : Prop :=
  StronglySorted Z.le (requestTimestamps rl) /\
  Forall (fun t => (t <= now w)%Z) (requestTimestamps rl).
End RateLimiter.

(** ** utils.js: EmbeddingCache *)

Module EmbeddingCache.

Section Cache.
Context {V : Type}.
(** [getKey]: the hexadecimal SHA-1 digest of the text, computed by the
    host's [crypto.subtle]. *)
Variable getKey : string -> string.

(** A [Map] keeps its entries in insertion order, one entry per key. *)
Record t : Type := mk {
  cache : list (string * V);
  maxSize : nat
}.

Definition new (maxSize : nat) : t := mk [] maxSize.

Definition size (c : t) : nat := length (cache c).
Definition keys (c : t) : list string := (cache c).*1.

(** [Map.prototype.get], [None] for [undefined]. *)
Fixpoint map_get (key : string) (m : list (string * V)) : option V :=
  match m with
  | [] => None
  | (k, v) :: m' => if decide (key = k) then Some v else map_get key m'
  end.

(** [Map.prototype.set]: an existing key keeps its place, a new key goes
    last. *)
Fixpoint map_set (key : string) (value : V) (m : list (string * V))
  : list (string * V) :=
  match m with
  | [] => [(key, value)]
  | (k, v) :: m' =>
      if decide (key = k) then (key, value) :: m'
      else (k, v) :: map_set key value m'
  end.

(** [Map.prototype.delete] *)
Definition map_delete (key : string) (m : list (string * V)) : list (string * V) :=
  filter (fun e => e.1 <> key) m.

Definition get (c : t) (text : string) : option V :=
  map_get (getKey text) (cache c).

(** [this.cache.keys().next().value] is [undefined] in an empty map, and
    deleting [undefined] removes nothing. *)
Definition evict (c : t) : t :=
  match head (cache c) with
  | Some (firstKey, _) => mk (map_delete firstKey (cache c)) (maxSize c)
  | None => c
  end.

Definition set (c : t) (text : string) (embedding : V) : t :=
  let c' := if bool_decide (maxSize c <= size c) then evict c else c in
  mk (map_set (getKey text) embedding (cache c')) (maxSize c').

(** A sequence of [set] calls on a new cache. *)
Definition after_sets (maxSize : nat) (puts : list (string * V)) : t :=
  foldl (fun c p => set c p.1 p.2) (new maxSize) puts.

(** The bound on the size, for whatever capacity the cache is given. *)
Definition within_capacity (maxSize : nat) (puts : list (string * V)) : Prop :=
  size (after_sets maxSize puts) <= maxSize.
(** The entries [set] keeps before it writes the new one. *)
Definition kept (c : t) : list (string * V) :=
  if bool_decide (maxSize c <= size c) then tail (cache c) else cache c.

(** What every cache built by [set] satisfies. *)
Definition wf (c : t) : Prop := NoDup (keys c) /\ size c <= maxSize c.
End Cache.

Arguments t : clear implicits.

End EmbeddingCache.

(** ** embeddings.js: EmbeddingService *)

Module EmbeddingService.

Inductive Error : Type :=
  | TypeError
  | FetchError
  | SyntaxError
  | OllamaApiError (status : Z) (errorBody : string)
  | GeminiApiError (status : Z) (message : Value)
  | GeminiKeyMissing
  | UnsupportedProvider (provider : string).

(** What a call settles to: a value, or a thrown error. *)
Inductive Outcome (A : Type) : Type :=
  | Return (a : A)
  | Throw (e : Error).
Arguments Return {A} _.
Arguments Throw {A} _.

Definition is_Throw {A : Type} (o : Outcome A) : Prop :=
  match o with Throw _ => True | Return _ => False end.

(** Truthiness, as [if (cached)] and [!apiKey] test it. *)
Definition truthy (v : Value) : bool :=
  match v with
  | None | Some JNull => false
  | Some (JBool b) => b
  | Some (JNumber x) => negb ((x =? 0)%float || negb (x =? x)%float)
  | Some (JString s) => negb (bool_decide (s = ""))
  | Some (JArray _) | Some (JObject _) => true
  end.

Fixpoint member (name : string) (members : list (string * JSON)) : Value :=
  match members with
  | [] => undefined
  | (k, v) :: members' => if decide (name = k) then Some v else member name members'
  end.

(** [v.name] for the names this code reads ([embedding], [value], [error],
    [message]): a [TypeError] on [undefined] and [null], the member of an
    object, [undefined] on everything else. *)
Definition property (v : Value) (name : string) : Outcome Value :=
  match v with
  | None | Some JNull => Throw TypeError
  | Some (JObject members) => Return (member name members)
  | Some _ => Return undefined
  end.

(** The per-provider settings object; an unset field is [None]. *)
Record Config : Type := mkConfig {
  endpoint : option string;
  config_model : option string;
  apiKey : option string
}.

(** The settings object of [storage.js].  A missing object ([undefined])
    is [None] where the constructor receives it. *)
Record Settings : Type := mkSettings {
  settings_provider : option string;
  ollama : option Config;
  gemini : option Config
}.

(** [settings[name]]: the two provider entries; under any other name
    nothing that this code reads afterwards. *)
Definition entry (settings : Settings) (name : string) : option Config :=
  if decide (name = "ollama") then ollama settings
  else if decide (name = "gemini") then gemini settings
  else None.

(** [s || d] on an optional string. *)
Definition or_else (s : option string) (d : string) : string :=
  match s with
  | Some x => if decide (x = "") then d else x
  | None => d
  end.

Record t : Type := mk {
  provider : string;
  config : option Config;
  cache : EmbeddingCache.t Value;
  rateLimiter : RateLimiter.t
}.

Definition constructor (settings : option Settings) : Outcome t :=
  match settings with
  | None => Throw TypeError
  | Some settings =>
      let provider := or_else (settings_provider settings) "ollama" in
      Return (mk provider (entry settings provider)
                 (EmbeddingCache.new 1000) (RateLimiter.new 45 60000))
  end.

Section Service.
(** [EmbeddingCache.getKey]: the host's SHA-1 digest in hexadecimal. *)
Variable getKey : string -> string.
Variable env : Env.

Definition getOllamaEmbedding (this : t) (w : World) (text : string)
  : Outcome Value * World :=
  match config this with
  | None => (Throw TypeError, w)
  | Some config =>
      let endpoint := or_else (endpoint config) "http://localhost:11434" in
      let request :=
        mkRequest (endpoint ++ "/api/embeddings")
                  (or_else (config_model config) "nomic-embed-text") text in
      match fetch env request w with
      | (Rejected, w') => (Throw FetchError, w')
      | (Responded response, w') =>
          if negb (ok response)
          then (Throw (OllamaApiError (status response) (response_text response)), w')
          else
            match json response with
            | None => (Throw SyntaxError, w')
            | Some data => (property (Some data) "embedding", w')
            end
      end
  end.

Definition getGeminiEmbedding (this : t) (w : World) (text : string)
  : Outcome Value * World :=
  match config this with
  | None => (Throw TypeError, w)
  | Some config =>
      match apiKey config with
      | None | Some "" => (Throw GeminiKeyMissing, w)
      | Some apiKey =>
          let request :=
            mkRequest
              ("https://generativelanguage.googleapis.com/v1beta/models/text-embedding-004:embedContent?key="
                 ++ apiKey)
              "models/text-embedding-004" text in
          match fetch env request w with
          | (Rejected, w') => (Throw FetchError, w')
          | (Responded response, w') =>
              if negb (ok response)
              then
                match json response with
                | None => (Throw SyntaxError, w')
                | Some errorBody =>
                    match property (Some errorBody) "error" with
                    | Throw e => (Throw e, w')
                    | Return error =>
                        match property error "message" with
                        | Throw e => (Throw e, w')
                        | Return message =>
                            (Throw (GeminiApiError (status response) message), w')
                        end
                    end
                end
              else
                match json response with
                | None => (Throw SyntaxError, w')
                | Some data =>
                    match property (Some data) "embedding" with
                    | Throw e => (Throw e, w')
                    | Return embedding => (property embedding "value", w')
                    end
                end
          end
      end
  end.

(** [fuel] is the fuel of [RateLimiter.throttle]; [None] says the call is
    still waiting for admission. *)
Definition getEmbedding (fuel : nat) (this : t) (w : World) (text : string)
  : option (Outcome Value * t * World) :=
  let cached : Value := mjoin (EmbeddingCache.get getKey (cache this) text) in
  if truthy cached then Some (Return cached, this, w)
  else
    match RateLimiter.throttle env fuel (rateLimiter this) w with
    | None => None
    | Some (rateLimiter', w1) =>
        let this1 := mk (provider this) (config this) (cache this) rateLimiter' in
        let '(result, w2) :=
          if decide (provider this = "ollama") then getOllamaEmbedding this1 w1 text
          else if decide (provider this = "gemini") then getGeminiEmbedding this1 w1 text
          else (Throw (UnsupportedProvider (provider this)), w1) in
        match result with
        | Throw e => Some (Throw e, this1, w2)
        | Return embedding =>
            let this2 :=
              mk (provider this1) (config this1)
                 (EmbeddingCache.set getKey (cache this1) text embedding)
                 (rateLimiter this1) in
            Some (Return embedding, this2, w2)
        end
    end.

(** What [generateEmbeddingsForMessages] hands back, with the calls of
    [onProgress] in the order they were made. *)
Record Batch : Type := mkBatch {
  messagesWithEmbeddings : list (Message Value);
  progress : list (nat * nat);
  service : t;
  world : World
}.

(** The body of [for (const message of messages)], over the messages
    still to come; [total] is [messages.length].  Writing to the console
    is left out. *)
Fixpoint each_message {E : Type} (fuel : nat) (total : nat)
    (messages : list (Message E)) (count : nat) (b : Batch) : option Batch :=
  match messages with
  | [] => Some b
  | message :: messages' =>
      match getEmbedding fuel (service b) (world b) (body message) with
      | None => None
      | Some (result, this', w') =>
          let embedding :=
            match result with
            | Return embedding => embedding
            | Throw _ => null
            end in
          each_message fuel total messages' (S count)
            (mkBatch (messagesWithEmbeddings b ++ [with_embedding message embedding])
                     (progress b ++ [(S count, total)])
                     this' w')
      end
  end.

Definition generateEmbeddingsForMessages {E : Type} (fuel : nat) (this : t)
    (w : World) (messages : list (Message E)) : option Batch :=
  each_message fuel (length messages) messages 0 (mkBatch [] [] this w).

(** What the call of [getEmbedding] for each message settles to, in the
    order of the messages, when the loop starts from [this] and [w]. *)
Fixpoint outcomes {E : Type} (fuel : nat) (this : t) (w : World)
    (messages : list (Message E)) : list (Outcome Value) :=
  match messages with
  | [] => []
  | message :: messages' =>
      match getEmbedding fuel this w (body message) with
      | None => []
      | Some (result, this', w') => result :: outcomes fuel this' w' messages'
      end
  end.
End Service.

(** The embedding the loop attaches for an outcome. *)
Definition attached (result : Outcome Value) : Value :=
  match result with
  | Return embedding => embedding
  | Throw _ => null
  end.

(** The limiter of the service is steady: so is every limiter the
    constructor makes, at any later time. *)
Definition ready (this : t) (w : World) : Prop :=
  RateLimiter.steady (rateLimiter this) w.

(** *** Sample hosts and settings *)

Definition vector : JSON := JArray [JNumber 1; JNumber 0].

(** A prompt host whose network answers every request with an embedding,
    except the request for the text [failing], which fails in transport. *)
Definition answering (failing : string) : Env :=
  mkEnv (fun _ => 0%N)
        (fun _ request =>
           if decide (input request = failing) then Rejected
           else Responded (mkResponse true 200 "" (Some (JObject [("embedding", vector)])))).

(** A prompt host whose network cannot be reached. *)
Definition unreachable : Env := mkEnv (fun _ => 0%N) (fun _ _ => Rejected).

(** A prompt host whose network answers every request with [data]. *)
Definition replying (data : JSON) : Env :=
  mkEnv (fun _ => 0%N) (fun _ _ => Responded (mkResponse true 200 "" (Some data))).

Definition settings_for (provider : string) : Settings :=
  mkSettings (Some provider)
             (Some (mkConfig (Some "http://localhost:11434") (Some "nomic-embed-text") None))
             (Some (mkConfig None None (Some ""))).

Definition service_for (provider : string) : t :=
  mk provider (entry (settings_for provider) provider)
     (EmbeddingCache.new 1000) (RateLimiter.new 45 60000).

Definition letter (n : Z) (body : string) : Message unit :=
  mkMessage n "subject" "2024-01-01T00:00:00Z" "sender@example.org" body tt.

Definition letters : list (Message unit) :=
  [letter 1 "one"; letter 2 "two"; letter 3 "three"; letter 4 "four"; letter 5 "five"].

(** The constructor throws for the provider name it is given. *)
Definition rejected_at_construction (settings : Settings) : Prop :=
  constructor (Some settings)
  = Throw (UnsupportedProvider (or_else (settings_provider settings) "ollama")).

(** The call of the local provider throws. *)
Definition local_call_fails (env : Env) (this : t) (w : World) (text : string) : Prop :=
  is_Throw (getOllamaEmbedding env this w text).1.

End EmbeddingService.

(** ** collator.js: EmailCollator.escapeHtml *)

Module EmailCollator.

(** [str.replace(/c/g, replacement)] for a pattern that is one character.
    None of the replacements below holds a [$], so each is inserted as it
    is written. *)
Fixpoint replace_all (c : ascii) (replacement : string) (str : string) : string :=
  match str with
  | EmptyString => EmptyString
  | String x str' =>
      if Ascii.eqb x c then replacement +:+ replace_all c replacement str'
      else String x (replace_all c replacement str')
  end.

(** The double quote. *)
Definition quote : ascii := ascii_of_nat 34.

Definition escapeHtml (str : string) : string :=
  replace_all "'" "&#039;"
    (replace_all quote "&quot;"
       (replace_all ">" "&gt;"
          (replace_all "<" "&lt;"
             (replace_all "&" "&amp;" str)))).

(** What one character becomes. *)
Definition entity (x : ascii) : string :=
  if Ascii.eqb x "&" then "&amp;"
  else if Ascii.eqb x "<" then "&lt;"
  else if Ascii.eqb x ">" then "&gt;"
  else if Ascii.eqb x quote then "&quot;"
  else if Ascii.eqb x "'" then "&#039;"
  else String x EmptyString.

(** The characters of a string, and the five characters [escapeHtml]
    replaces. *)
Fixpoint chars (str : string) : list ascii :=
  match str with
  | EmptyString => []
  | String x str' => x :: chars str'
  end.

Definition special (x : ascii) : Prop :=
  x = "&"%char \/ x = "<"%char \/ x = ">"%char \/ x = quote \/ x = "'"%char.

End EmailCollator.

(** ** storage.js: StorageManager *)

Module StorageManager.

(** A settings object: its properties in the order they were written, one
    value per name.  The names are not integer-like, so this is also the
    order in which the engine enumerates them. *)
Definition Object : Type := list (string * JSON).

#[warnings="-inexact-float"] Definition defaults : Object :=
  [ ("provider", JString "ollama");
    ("ollama", JObject [ ("endpoint", JString "http://localhost:11434");
                         ("model", JString "nomic-embed-text") ]);
    ("gemini", JObject [ ("apiKey", JString "") ]);
    ("similarityThreshold", JNumber 0.95) ].

(** [{ ...a, ...b }]: the properties of [b] are written over those of [a],
    an existing name keeping its place and a new one going last. *)
Definition spread (a b : Object) : Object :=
  foldl (fun o p => EmbeddingCache.map_set p.1 p.2 o) a b.

(** What [messenger.storage.local.get] settles to: it rejects, or it gives
    the stored settings object, [None] when nothing (or a falsy value) is
    stored under the key. *)
Inductive StorageRead : Type :=
  | ReadRejected
  | ReadResolved (stored : option Object).

Inductive Settled (A : Type) : Type :=
  | Resolved (a : A)
  | ReferenceError.
Arguments Resolved {A} _.
Arguments ReferenceError {A}.

(** [defaults] is declared inside the [try] block; the [catch] block, which
    returns it, is outside its scope. *)
Definition getSettings (read : StorageRead) : Settled Object :=
  match read with
  | ReadResolved stored => Resolved (spread defaults (default [] stored))
  | ReadRejected => ReferenceError
  end.

End StorageManager.

(** ** utils.js: ProgressReporter *)

Module ProgressReporter.

(** A listener is a function, told from the others by its identity, which
    is a number here.  [listeners] is the [Set] in insertion order. *)
Record t : Type := mk {
  listeners : list nat
}.

Definition new : t := mk [].

(** [Set.prototype.add]: nothing changes when the value is in the set. *)
Definition addListener (this : t) (listener : nat) : t :=
  if bool_decide (listener ∈ listeners this) then this
  else mk (listeners this ++ [listener]).

(** [Set.prototype.delete] *)
Definition removeListener (this : t) (listener : nat) : t :=
  mk (filter (fun l => l <> listener) (listeners this)).

(** What [report] does: the listeners it called, in the order of the
    calls, and the listeners whose error it caught and wrote to the
    console.  [throws l status] says whether listener [l] throws on
    [status]; listeners do not change the set while it is iterated. *)
Record Report (Status : Type) : Type := mkReport {
  called : list (nat * Status);
  caught : list nat
}.
Arguments mkReport {Status} _ _.
Arguments called {Status} _.
Arguments caught {Status} _.

Fixpoint report_to {Status : Type} (throws : nat -> Status -> bool)
    (ls : list nat) (status : Status) : Report Status :=
  match ls with
  | [] => mkReport [] []
  | listener :: ls' =>
      let rest := report_to throws ls' status in
      mkReport ((listener, status) :: called rest)
               (if throws listener status then listener :: caught rest
                else caught rest)
  end.

Definition report {Status : Type} (throws : nat -> Status -> bool) (this : t)
    (status : Status) : Report Status :=
  report_to throws (listeners this) status.

(** The calls of [addListener] and [removeListener] a reporter receives. *)
Inductive Call : Type :=
  | Add (listener : nat)
  | Remove (listener : nat).

Definition apply_call (this : t) (c : Call) : t :=
  match c with
  | Add l => addListener this l
  | Remove l => removeListener this l
  end.

Definition after_calls (calls : list Call) : t := foldl apply_call new calls.

(** Whether the last call that names [listener] adds it. *)
Definition registered (calls : list Call) (listener : nat) : bool :=
  foldl (fun r c =>
           match c with
           | Add l => if bool_decide (l = listener) then true else r
           | Remove l => if bool_decide (l = listener) then false else r
           end) false calls.

End ProgressReporter.
(** ** The de-duplicator *)

Module DedupFacts.
Import Deduplicator.

Section Marks.
Variable threshold : float.
Variable messages : list Msg.

Local Abbreviation separated := (Deduplicator.separated threshold messages).
Local Abbreviation caused := (Deduplicator.caused threshold messages).

Lemma marked_insert (D : list bool) (j k : nat) :
  marked (<[j:=true]> D) k = marked D k || (bool_decide (j = k) && bool_decide (j < length D)).
Proof.
  unfold marked. destruct (decide (j = k)) as [->|Hne].
  - destruct (decide (k < length D)) as [Hlt|Hge].
    + rewrite list_lookup_insert_eq by done.
      rewrite !bool_decide_eq_true_2 by done. simpl. by rewrite orb_true_r.
    + rewrite list_insert_ge by lia.
      rewrite (bool_decide_eq_false_2 (k < length D)) by done.
      by rewrite andb_false_r, orb_false_r.
  - rewrite list_lookup_insert_ne by done.
    rewrite (bool_decide_eq_false_2 (j = k)) by done. by rewrite orb_false_r.
Qed.

Lemma marked_insert_mono (D : list bool) (j k : nat) :
  marked D k = true -> marked (<[j:=true]> D) k = true.
Proof. intros H. rewrite marked_insert, H. done. Qed.

Lemma marked_insert_eq (D : list bool) (j : nat) :
  j < length D -> marked (<[j:=true]> D) j = true.
Proof.
  intros H. rewrite marked_insert. rewrite !bool_decide_eq_true_2 by done.
  by rewrite orb_true_r.
Qed.

Lemma marked_insert_ne (D : list bool) (j k : nat) :
  j <> k -> marked (<[j:=true]> D) k = marked D k.
Proof.
  intros H. rewrite marked_insert. rewrite (bool_decide_eq_false_2 (j = k)) by done.
  by rewrite orb_false_r.
Qed.

Lemma marked_replicate (n k : nat) : marked (replicate n false) k = false.
Proof.
  unfold marked. destruct (replicate n false !! k) as [b|] eqn:E; [|done].
  apply lookup_replicate in E as [-> _]. done.
Qed.

Lemma length_scan i js D : length (scan threshold messages i js D) = length D.
Proof.
  revert D. induction js as [|j js IH]; intros D; simpl; [done|].
  repeat case_match; rewrite ?IH, ?length_insert; done.
Qed.

Lemma length_visit D i : length (visit threshold messages D i) = length D.
Proof. unfold visit. case_match; [done|apply length_scan]. Qed.

Lemma length_foldl_visit D is_ :
  length (foldl (visit threshold messages) D is_) = length D.
Proof.
  revert D. induction is_ as [|i is_ IH]; intros D; simpl; [done|].
  by rewrite IH, length_visit.
Qed.

Lemma length_marks_upto n : length (marks_upto threshold messages n) = length messages.
Proof. unfold marks_upto. by rewrite length_foldl_visit, length_replicate. Qed.

(** A mark, once set, stays. *)
Lemma scan_mono i js D k :
  marked D k = true -> marked (scan threshold messages i js D) k = true.
Proof.
  revert D. induction js as [|j js IH]; intros D H; simpl; [done|].
  repeat case_match; auto using marked_insert_mono.
Qed.

Lemma visit_mono D i k :
  marked D k = true -> marked (visit threshold messages D i) k = true.
Proof. unfold visit. case_match; auto using scan_mono. Qed.

Lemma foldl_visit_mono D is_ k :
  marked D k = true -> marked (foldl (visit threshold messages) D is_) k = true.
Proof.
  revert D. induction is_ as [|i is_ IH]; intros D H; simpl; auto using visit_mono.
Qed.

(** The scan of [i] either marks [i] and stops, or leaves [i] unmarked
    and no unmarked [j] it visited is similar to [i]. *)
Lemma scan_separates i js D :
  i < length D ->
  Forall (fun j => i <> j /\ j < length D) js ->
  marked D i = false ->
  let D' := scan threshold messages i js D in
  marked D' i = true \/
  (marked D' i = false /\
   forall j, j ∈ js -> marked D' j = false ->
     has_embedding (message_at messages j) = true ->
     similar threshold (embedding (message_at messages i))
                       (embedding (message_at messages j)) = false).
Proof.
  revert D. induction js as [|j js IH]; intros D Hi Hjs HDi; simpl.
  { right. split; [done|]. intros j Hj. by apply elem_of_nil in Hj. }
  apply Forall_cons in Hjs as [[Hij Hj] Hjs].
  destruct (marked D j || negb (has_embedding (message_at messages j))) eqn:Hskip.
  { destruct (IH D Hi Hjs HDi) as [Hb|[Hn Hrow]]; [by left|right].
    split; [done|]. intros k Hk Hmk Hek.
    apply elem_of_cons in Hk as [->|Hk]; [|by apply Hrow].
    apply orb_true_iff in Hskip as [Hm|He].
    - by rewrite (scan_mono _ _ _ _ Hm) in Hmk.
    - by rewrite Hek in He. }
  destruct (similar threshold _ _) eqn:Hsim.
  - destruct (_ <? _) eqn:Hlen.
    + assert (Hlen' : length (<[j:=true]> D) = length D) by apply length_insert.
      destruct (IH (<[j:=true]> D)) as [Hb|[Hn Hrow]].
      * by rewrite Hlen'.
      * by rewrite Hlen'.
      * by rewrite marked_insert_ne by (intros ->; done).
      * by left.
      * right. split; [done|]. intros k Hk Hmk Hek.
        apply elem_of_cons in Hk as [->|Hk]; [|by apply Hrow].
        by rewrite (scan_mono _ _ _ _ (marked_insert_eq D j Hj)) in Hmk.
    + left. by apply marked_insert_eq.
  - destruct (IH D Hi Hjs HDi) as [Hb|[Hn Hrow]]; [by left|right].
    split; [done|]. intros k Hk Hmk Hek.
    apply elem_of_cons in Hk as [->|Hk]; [done|by apply Hrow].
Qed.

Lemma Forall_seq_after i n :
  Forall (fun j => i <> j /\ j < n) (seq (S i) (n - S i)).
Proof. apply Forall_forall. intros j Hj. apply elem_of_seq in Hj. lia. Qed.

Lemma visit_separated n D :
  length D = length messages -> n < length messages ->
  separated n D -> separated (S n) (visit threshold messages D n).
Proof.
  intros HD Hn Hsep i j Hi Hij Hmi Hmj Hei Hej.
  assert (HDi : marked D i = false).
  { destruct (marked D i) eqn:E; [|done]. by rewrite (visit_mono _ _ _ E) in Hmi. }
  assert (HDj : marked D j = false).
  { destruct (marked D j) eqn:E; [|done]. by rewrite (visit_mono _ _ _ E) in Hmj. }
  destruct (decide (i = n)) as [->|Hne]; [|apply Hsep; auto; lia].
  unfold visit in Hmi, Hmj. rewrite HDi, Hei in Hmi, Hmj. simpl in Hmi, Hmj.
  pose proof (scan_separates n (seq (S n) (length messages - S n)) D) as Hs.
  simpl in Hs. destruct Hs as [Hb|[_ Hrow]]; try done.
  - by rewrite HD.
  - rewrite HD. apply Forall_seq_after.
  - by rewrite Hb in Hmi.
  - apply Hrow; [|done..]. apply elem_of_seq. lia.
Qed.

Lemma marks_upto_S n :
  marks_upto threshold messages (S n)
  = visit threshold messages (marks_upto threshold messages n) n.
Proof. unfold marks_upto. by rewrite seq_S, foldl_app. Qed.

Lemma marks_upto_separated n :
  n <= length messages -> separated n (marks_upto threshold messages n).
Proof.
  induction n as [|n IH]; intros Hn.
  - intros i j Hi. lia.
  - rewrite marks_upto_S. apply visit_separated; [apply length_marks_upto|lia|].
    apply IH. lia.
Qed.

(** When nothing the scan visits is similar to [i], it marks nothing. *)
Lemma scan_nothing i js D :
  (forall j, j ∈ js -> has_embedding (message_at messages j) = true ->
     similar threshold (embedding (message_at messages i))
                       (embedding (message_at messages j)) = false) ->
  scan threshold messages i js D = D.
Proof.
  induction js as [|j js IH]; intros H; simpl; [done|].
  assert (IH' : scan threshold messages i js D = D).
  { apply IH. intros k Hk. apply H. by right. }
  destruct (marked D j || negb (has_embedding (message_at messages j))) eqn:Hskip;
    [done|].
  apply orb_false_iff in Hskip as [_ He]. apply negb_false_iff in He.
  rewrite (H j) by (done || by left). done.
Qed.

Lemma scan_caused i js D k :
  (marked D k = true -> caused k) ->
  marked (scan threshold messages i js D) k = true -> caused k.
Proof.
  revert D. induction js as [|j js IH]; intros D HD; simpl; [done|].
  destruct (marked D j || negb (has_embedding (message_at messages j)));
    [by apply IH|].
  destruct (similar threshold _ _) eqn:Hsim; [|by apply IH].
  destruct (_ <? _).
  - apply IH. rewrite marked_insert. intros [Hk|Hk]%orb_true_iff; [by apply HD|].
    apply andb_true_iff in Hk as [->%bool_decide_eq_true _].
    eexists. right. exact Hsim.
  - rewrite marked_insert. intros [Hk|Hk]%orb_true_iff; [by apply HD|].
    apply andb_true_iff in Hk as [->%bool_decide_eq_true _].
    eexists. left. exact Hsim.
Qed.

Lemma foldl_visit_caused is_ D k :
  (marked D k = true -> caused k) ->
  marked (foldl (visit threshold messages) D is_) k = true -> caused k.
Proof.
  revert D. induction is_ as [|i is_ IH]; intros D HD; simpl; [done|].
  apply IH. unfold visit. case_match; [done|]. by apply scan_caused.
Qed.

Lemma marks_caused k :
  marked (marks threshold messages) k = true -> caused k.
Proof.
  apply foldl_visit_caused. by rewrite marked_replicate.
Qed.
End Marks.

(** *** The last loop, by recursion on the two arrays *)

Lemma keep_nil_r (messages : list Msg) : keep messages [] = messages.
Proof. by destruct messages. Qed.

Lemma marked_drop (D : list bool) (k : nat) :
  drop k D = match D !! k with Some d => d :: drop (S k) D | None => [] end.
Proof.
  destruct (D !! k) as [d|] eqn:E.
  - by apply drop_S.
  - apply drop_ge. by apply lookup_ge_None.
Qed.

Lemma collect_from (ms pre : list Msg) (D : list bool) (acc : list Msg) :
  foldl (fun uniqueMessages i =>
           if marked D i then uniqueMessages
           else uniqueMessages ++ [message_at (pre ++ ms) i])
        acc (seq (length pre) (length ms))
  = acc ++ keep ms (drop (length pre) D).
Proof.
  revert pre acc. induction ms as [|m ms IH]; intros pre acc; simpl.
  { by rewrite app_nil_r. }
  assert (Hm : message_at (pre ++ m :: ms) (length pre) = m).
  { unfold message_at. by rewrite list_lookup_middle. }
  specialize (IH (pre ++ [m])). rewrite length_app in IH. simpl in IH.
  rewrite Nat.add_1_r in IH. rewrite <- app_assoc in IH. simpl in IH.
  rewrite IH, Hm, (marked_drop D (length pre)). unfold marked.
  destruct (D !! length pre) as [[|]|] eqn:E; simpl.
  - done.
  - by rewrite <- app_assoc.
  - rewrite (drop_ge D (S (length pre))), keep_nil_r, <- app_assoc; [done|].
    apply lookup_ge_None in E. lia.
Qed.

Lemma collect_keep (messages : list Msg) (D : list bool) :
  collect messages D = keep messages D.
Proof. exact (collect_from messages [] D []). Qed.

Lemma keep_sublist (messages : list Msg) (D : list bool) :
  sublist (keep messages D) messages.
Proof.
  revert D. induction messages as [|m ms IH]; intros [|[|] D]; simpl;
    try done; by constructor.
Qed.

Lemma keep_replicate (messages : list Msg) (n : nat) :
  keep messages (replicate n false) = messages.
Proof.
  revert n. induction messages as [|m ms IH]; intros [|n]; simpl; [done..|].
  by rewrite IH.
Qed.

(** Where a kept message comes from. *)
Lemma keep_lookup (messages : list Msg) (D : list bool) (q : nat) (b : Msg) :
  keep messages D !! q = Some b ->
  exists j, messages !! j = Some b /\ marked D j = false.
Proof.
  revert D q. induction messages as [|m ms IH]; intros D q; [done|].
  destruct D as [|[|] D]; simpl.
  - intros H. exists q. split; [done|]. unfold marked. by rewrite lookup_nil.
  - intros H. destruct (IH _ _ H) as (j & Hj & Hm). by exists (S j).
  - destruct q as [|q]; simpl.
    + intros [= ->]. by exists 0.
    + intros H. destruct (IH _ _ H) as (j & Hj & Hm). by exists (S j).
Qed.

Lemma keep_lookup2 (messages : list Msg) (D : list bool) (p q : nat) (a b : Msg) :
  p < q -> keep messages D !! p = Some a -> keep messages D !! q = Some b ->
  exists i j, i < j /\ messages !! i = Some a /\ messages !! j = Some b /\
              marked D i = false /\ marked D j = false.
Proof.
  revert D p q. induction messages as [|m ms IH]; intros D p q Hpq; [done|].
  destruct D as [|[|] D]; simpl.
  - intros Ha Hb. exists p, q. unfold marked. by rewrite !lookup_nil.
  - intros Ha Hb. destruct (IH _ _ _ Hpq Ha Hb) as (i & j & ? & ? & ? & ? & ?).
    exists (S i), (S j). repeat split; [lia|done..].
  - destruct q as [|q]; [lia|]. destruct p as [|p]; simpl.
    + intros [= ->] Hb. destruct (keep_lookup _ _ _ _ Hb) as (j & Hj & Hm).
      exists 0, (S j). repeat split; [lia|done..].
    + intros Ha Hb.
      destruct (IH D p q ltac:(lia) Ha Hb) as (i & j & ? & ? & ? & ? & ?).
      exists (S i), (S j). repeat split; [lia|done..].
Qed.

Lemma keep_unmarked (messages : list Msg) (D : list bool) (k : nat) (m : Msg) :
  messages !! k = Some m -> marked D k = false -> m ∈ keep messages D.
Proof.
  revert D k. induction messages as [|x ms IH]; intros D k; [done|].
  destruct D as [|[|] D]; simpl.
  - intros H _. by eapply list_elem_of_lookup_2.
  - destruct k as [|k]; simpl; [by intros _ ?|].
    intros H1 H2. exact (IH D k H1 H2).
  - destruct k as [|k]; simpl.
    + intros [= ->] _. by left.
    + intros H1 H2. right. exact (IH D k H1 H2).
Qed.

(** *** Degenerate embeddings and a positive threshold *)

Lemma ltb_zero_asym (t : float) :
  (0 <? t)%float = true -> (t <? 0)%float = false.
Proof.
  rewrite !ltb_spec. change (Prim2SF 0) with (S754_zero false).
  destruct (Prim2SF t) as [s|s| |s m e]; try destruct s; done.
Qed.

Lemma accumulate_nil_l (b : list float) (d na nb : float) :
  accumulate [] b d na nb = (d, na, nb).
Proof. done. Qed.

Lemma cosineSimilarity_degenerate_l (e x : Embedding) :
  degenerate e -> cosineSimilarity e x = 0%float.
Proof.
  intros [->| ->]; [done|]. destruct x as [[|b x]|]; done.
Qed.

Lemma cosineSimilarity_degenerate_r (e x : Embedding) :
  degenerate e -> cosineSimilarity x e = 0%float.
Proof.
  intros [->| ->]; [by destruct x|]. destruct x as [[|b x]|]; done.
Qed.

Lemma degenerate_not_similar (threshold : float) (e x : Embedding) :
  (0 <? threshold)%float = true -> degenerate e ->
  similar threshold e x = false /\ similar threshold x e = false.
Proof.
  intros Ht He. unfold similar.
  rewrite cosineSimilarity_degenerate_l, cosineSimilarity_degenerate_r by done.
  split; by apply ltb_zero_asym.
Qed.

(** *** The scan over a prefix of the indices *)

Lemma scan_app threshold messages i js1 js2 D :
  i < length D -> Forall (fun j => i <> j /\ j < length D) js1 ->
  marked D i = false ->
  scan threshold messages i (js1 ++ js2) D
  = let D1 := scan threshold messages i js1 D in
    if marked D1 i then D1 else scan threshold messages i js2 D1.
Proof.
  revert D. induction js1 as [|j js1 IH]; intros D Hi Hjs HDi; simpl.
  { by rewrite HDi. }
  apply Forall_cons in Hjs as [[Hij Hj] Hjs].
  destruct (marked D j || negb (has_embedding (message_at messages j)));
    [by apply IH|].
  destruct (similar threshold _ _); [|by apply IH].
  destruct (_ <? _).
  - apply IH; rewrite ?length_insert, ?marked_insert_ne; done.
  - by rewrite marked_insert_eq.
Qed.

Lemma marks_from threshold messages k :
  k <= length messages ->
  marks threshold messages
  = foldl (visit threshold messages) (marks_upto threshold messages k)
          (seq k (length messages - k)).
Proof.
  intros Hk. unfold marks, marks_upto. rewrite <- foldl_app. f_equal.
  replace (length messages) with (k + (length messages - k)) at 1 by lia.
  by rewrite seq_app.
Qed.

Lemma marks_upto_mono threshold messages k n :
  k <= length messages ->
  marked (marks_upto threshold messages k) n = true ->
  marked (marks threshold messages) n = true.
Proof. intros Hk H. rewrite (marks_from _ _ k Hk). by apply foldl_visit_mono. Qed.

Lemma foldl_visit_fixed threshold messages D is_ :
  (forall i, i ∈ is_ -> visit threshold messages D i = D) ->
  foldl (visit threshold messages) D is_ = D.
Proof.
  induction is_ as [|i is_ IH]; intros H; simpl; [done|].
  rewrite (H i) by by left. apply IH. intros k Hk. apply H. by right.
Qed.

(** A list without similar pairs is left as it is. *)
Lemma marks_nothing threshold (messages : list Msg) :
  (forall p q a b, p < q -> messages !! p = Some a -> messages !! q = Some b ->
     has_embedding a = true -> has_embedding b = true ->
     similar threshold (embedding a) (embedding b) = false) ->
  marks threshold messages = replicate (length messages) false.
Proof.
  intros H. unfold marks, marks_upto. apply foldl_visit_fixed.
  intros i Hi. apply elem_of_seq in Hi. unfold visit.
  destruct (marked _ i || negb (has_embedding (message_at messages i))) eqn:Hg;
    [done|].
  apply orb_false_iff in Hg as [_ Hei%negb_false_iff].
  apply scan_nothing. intros j Hj Hej. apply elem_of_seq in Hj.
  destruct (lookup_lt_is_Some_2 messages i) as [a Ha]; [lia|].
  destruct (lookup_lt_is_Some_2 messages j) as [b Hb]; [lia|].
  unfold message_at in *. rewrite Ha, Hb in *. simpl in *.
  apply (H i j); [lia|done..].
Qed.

(** C2, as stated, fails: in [fan] the first and the third message are
    similar and the third is the shorter one, but the first message is
    marked against the second before the scan reaches the third, which is
    never marked. *)
Lemma marks_pair_fan_fails : ~ marks_pair default_threshold fan 0 2.
Proof.
  unfold marks_pair. intros H.
  assert (Hm : marked (marks default_threshold fan) 2 = true).
  { apply H; [simpl; lia| vm_compute; reflexivity ..]. }
  vm_compute in Hm. discriminate.
Qed.

(** C2, amended: a pair [i < j] of embedded, similar messages that the scan
    compares (neither is marked when the scan of [i] reaches [j]) has its
    shorter message marked: [j] when the body of [i] is strictly longer, and
    the scan of [i] goes on; otherwise [i], whose turn ends there.  The mark
    is still set when [deduplicate] is done.  In the scenario of the design
    document the result is the first and the third document. *)
Theorem compared_pair_marks_shorter :
  (forall threshold messages i j,
     i < j < length messages ->
     let D0 := marks_upto threshold messages i in
     let D1 := scan threshold messages i (seq (S i) (j - S i)) D0 in
     marked D1 i = false -> marked D1 j = false ->
     has_embedding (message_at messages i) = true ->
     has_embedding (message_at messages j) = true ->
     similar threshold (embedding (message_at messages i))
                       (embedding (message_at messages j)) = true ->
     if String.length (body (message_at messages j))
          <? String.length (body (message_at messages i))
     then scan threshold messages i (seq (S i) (S j - S i)) D0 = <[j:=true]> D1
          /\ marked (marks threshold messages) j = true
     else visit threshold messages D0 i = <[i:=true]> D1
          /\ marked (marks threshold messages) i = true)
  /\ deduplicate default_threshold scenario
     = [ document 1 100 [1; 0]%float; document 3 80 [0; 1]%float ].
Proof.
  split; [|vm_compute; reflexivity].
  intros threshold messages i j Hij D0 D1 HD1i HD1j Hei Hej Hsim.
  assert (HlenD0 : length D0 = length messages) by apply length_marks_upto.
  assert (HlenD1 : length D1 = length messages).
  { unfold D1. by rewrite length_scan. }
  assert (HD0i : marked D0 i = false).
  { destruct (marked D0 i) eqn:E; [|done].
    unfold D1 in HD1i. by rewrite (scan_mono _ _ _ _ _ _ E) in HD1i. }
  assert (Hpre : Forall (fun k => i <> k /\ k < length D0) (seq (S i) (j - S i))).
  { apply Forall_forall. intros k Hk%elem_of_seq. lia. }
  assert (Hstep : forall rest,
    scan threshold messages i (seq (S i) (j - S i) ++ j :: rest) D0
    = if String.length (body (message_at messages j))
           <? String.length (body (message_at messages i))
      then scan threshold messages i rest (<[j:=true]> D1)
      else <[i:=true]> D1).
  { intros rest. rewrite scan_app by (done || lia). simpl. fold D1.
    by rewrite HD1i, HD1j, Hej, Hsim. }
  assert (Hvisit : visit threshold messages D0 i
    = scan threshold messages i
        (seq (S i) (j - S i) ++ j :: seq (S j) (length messages - S j)) D0).
  { unfold visit. rewrite HD0i, Hei. simpl. f_equal.
    replace (length messages - S i) with ((j - S i) + S (length messages - S j)) by lia.
    rewrite seq_app. simpl. replace (S (i + (j - S i))) with j by lia. done. }
  assert (Hfinal : forall k, marked (visit threshold messages D0 i) k = true ->
                        marked (marks threshold messages) k = true).
  { intros k Hk. apply (marks_upto_mono _ _ (S i)); [lia|]. by rewrite marks_upto_S. }
  rewrite Hstep in Hvisit. destruct (_ <? _).
  - split.
    + replace (S j - S i) with ((j - S i) + 1) by lia.
      rewrite seq_app. simpl. replace (S (i + (j - S i))) with j by lia.
      rewrite (Hstep []). done.
    + apply Hfinal. rewrite Hvisit. apply scan_mono, marked_insert_eq. lia.
  - split; [done|]. apply Hfinal. rewrite Hvisit. apply marked_insert_eq. lia.
Qed.

(** The amended rule at the scenario: the scan of the first document reaches
    the second with neither marked, and the second, shorter one is marked. *)
Lemma compared_pair_marks_shorter_witness :
  marked (marks default_threshold scenario) 1 = true.
Proof.
  apply (proj1 compared_pair_marks_shorter default_threshold scenario 0 1);
    [simpl; lia | vm_compute; reflexivity ..].
Defined.

Lemma sublist_filter_mono {A : Type} (P : A -> Prop) `{!forall x, Decision (P x)}
    (l1 l2 : list A) :
  sublist l1 l2 -> sublist (filter P l1) (filter P l2).
Proof.
  induction 1 as [|x l1 l2 _ IH|x l1 l2 _ IH]; rewrite ?filter_cons;
    [done| |]; destruct (decide (P x)); by try constructor.
Qed.

(** C6: the result of [deduplicate] is a subsequence of its input: the
    messages that are kept stay in their order, each one is a message of
    the input, and no message occurs more often than in the input (counted
    under any test [P]). *)
Theorem deduplicate_subsequence (threshold : float) (messages : list Msg) :
  sublist (deduplicate threshold messages) messages /\
  (forall m, m ∈ deduplicate threshold messages -> m ∈ messages) /\
  (forall P : Msg -> bool,
     length (filter (fun m => P m = true) (deduplicate threshold messages))
     <= length (filter (fun m => P m = true) messages)).
Proof.
  assert (H : sublist (deduplicate threshold messages) messages).
  { unfold deduplicate. rewrite collect_keep. apply keep_sublist. }
  split; [done|]. split.
  - intros m Hm. by eapply elem_of_sublist.
  - intros P. apply sublist_length. by apply sublist_filter_mono.
Qed.

(** C7: [deduplicate] is idempotent: a second pass marks nothing. *)
Theorem deduplicate_idempotent (threshold : float) (messages : list Msg) :
  deduplicate threshold (deduplicate threshold messages)
  = deduplicate threshold messages.
Proof.
  set (out := deduplicate threshold messages).
  assert (Hmarks : marks threshold out = replicate (length out) false).
  { apply marks_nothing. intros p q a b Hpq Ha Hb Hea Heb.
    unfold out, deduplicate in Ha, Hb. rewrite collect_keep in Ha, Hb.
    destruct (keep_lookup2 _ _ _ _ _ _ Hpq Ha Hb) as (i & j & Hij & Hi & Hj & Hmi & Hmj).
    pose proof (lookup_lt_Some _ _ _ Hj) as Hlt.
    pose proof (marks_upto_separated threshold messages (length messages)
                  ltac:(lia) i j) as Hsep.
    unfold message_at in Hsep. rewrite Hi, Hj in Hsep. simpl in Hsep.
    apply Hsep; [lia|lia|done..]. }
  unfold deduplicate at 1. by rewrite Hmarks, collect_keep, keep_replicate.
Qed.

(** C8: with a threshold in (0,1), a message whose embedding is absent or
    empty is never marked and is in the result of [deduplicate]. *)
Theorem deduplicate_retains_unembedded (threshold : float) (messages : list Msg)
    (k : nat) (m : Msg) :
  (0 <? threshold)%float = true -> (threshold <? 1)%float = true ->
  messages !! k = Some m ->
  embedding m = None \/ embedding m = Some [] ->
  marked (marks threshold messages) k = false /\
  m ∈ deduplicate threshold messages.
Proof.
  intros Hpos _ Hk Hdeg.
  assert (Hm : marked (marks threshold messages) k = false).
  { destruct (marked (marks threshold messages) k) eqn:E; [|done].
    destruct (marks_caused _ _ _ E) as [e He].
    unfold message_at in He. rewrite Hk in He. simpl in He.
    destruct (degenerate_not_similar threshold (embedding m) e Hpos Hdeg) as [H1 H2].
    rewrite H1, H2 in He. by destruct He. }
  split; [done|]. unfold deduplicate. rewrite collect_keep.
  by eapply keep_unmarked.
Qed.

Lemma deduplicate_retains_unembedded_witness :
  marked (marks default_threshold mixed) 4 = false /\
  document 4 70 [] ∈ deduplicate default_threshold mixed.
Proof.
  apply (deduplicate_retains_unembedded default_threshold mixed 4 (document 4 70 []));
    [vm_compute; reflexivity | vm_compute; reflexivity | reflexivity | right; reflexivity].
Defined.

(** *** Further properties of [cosineSimilarity] and [deduplicate] *)

Lemma SFmul_comm (prec emax : Z) (x y : spec_float) :
  SFmul prec emax x y = SFmul prec emax y x.
Proof.
  destruct x as [sx|sx| |sx mx ex], y as [sy|sy| |sy my ey]; simpl;
    rewrite ?(xorb_comm sx sy), ?(Pos.mul_comm mx my), ?(Z.add_comm ex ey); done.
Qed.

Lemma float_mul_comm (x y : float) : (x * y)%float = (y * x)%float.
Proof.
  rewrite <- (SF2Prim_Prim2SF (x * y)), <- (SF2Prim_Prim2SF (y * x)), !mul_spec.
  f_equal. apply SFmul_comm.
Qed.

Lemma accumulate_swap (a b : list float) (d na nb : float) :
  accumulate b a d nb na
  = let '(d', na', nb') := accumulate a b d na nb in (d', nb', na').
Proof.
  revert b d na nb. induction a as [|x a IH]; intros [|y b] d na nb; simpl; try done.
  rewrite IH, (float_mul_comm y x). done.
Qed.

(** [cosineSimilarity] does not depend on the order of its arguments. *)
Theorem cosineSimilarity_sym (vecA vecB : Embedding) :
  cosineSimilarity vecA vecB = cosineSimilarity vecB vecA.
Proof.
  destruct vecA as [a|], vecB as [b|]; simpl; try done.
  rewrite (Nat.eqb_sym (length b) (length a)).
  destruct (length a =? length b); simpl; [|done].
  rewrite (accumulate_swap a b).
  destruct (accumulate a b 0 0 0) as [[d na] nb].
  rewrite (orb_comm (nb =? 0)%float), (float_mul_comm (PrimFloat.sqrt nb)). done.
Qed.

Lemma accumulate_zero_l (a b : list float) (d nb : float) :
  all_zero a -> (accumulate a b d 0 nb).1.2 = 0%float.
Proof.
  intros Ha. revert b d nb. induction Ha as [|x a Hx _ IH]; intros [|y b] d nb;
    simpl; try done.
  destruct Hx as [-> | ->]; apply IH.
Qed.

(** [cosineSimilarity] is exactly 0 when a vector is missing, when the
    lengths differ and when one of the vectors is all zero. *)
Theorem cosineSimilarity_zero (vecA vecB : Embedding) :
  vecA = None \/ vecB = None \/
  (exists a b, vecA = Some a /\ vecB = Some b /\
     (length a <> length b \/ all_zero a \/ all_zero b)) ->
  cosineSimilarity vecA vecB = 0%float.
Proof.
  assert (Hzero : forall a b, all_zero a -> cosineSimilarity (Some a) (Some b) = 0%float).
  { intros a b Ha. simpl. destruct (length a =? length b); simpl; [|done].
    pose proof (accumulate_zero_l a b 0 0 Ha) as H.
    destruct (accumulate a b 0 0 0) as [[d na] nb]. simpl in H. by rewrite H. }
  intros [-> | [-> | (a & b & -> & -> & [Hlen | [Ha | Hb]])]].
  - done.
  - by destruct vecA.
  - simpl. apply Nat.eqb_neq in Hlen. by rewrite Hlen.
  - by apply Hzero.
  - rewrite cosineSimilarity_sym. by apply Hzero.
Qed.

Lemma cosineSimilarity_zero_witness :
  cosineSimilarity (Some [0; -0]%float) (Some [1; 2]%float) = 0%float.
Proof.
  apply cosineSimilarity_zero. right. right. eexists _, _.
  split; [reflexivity|]. split; [reflexivity|]. right. left.
  apply Forall_cons. split; [by left|].
  apply Forall_cons. split; [by right|]. apply Forall_nil. done.
Defined.
(** No two embedded messages of the result are similar, in either order. *)
Theorem survivors_not_similar (threshold : float) (messages : list Msg)
    (p q : nat) (a b : Msg) :
  p < q ->
  deduplicate threshold messages !! p = Some a ->
  deduplicate threshold messages !! q = Some b ->
  has_embedding a = true -> has_embedding b = true ->
  similar threshold (embedding a) (embedding b) = false /\
  similar threshold (embedding b) (embedding a) = false.
Proof.
  intros Hpq Ha Hb Hea Heb. unfold deduplicate in Ha, Hb.
  rewrite collect_keep in Ha, Hb.
  destruct (keep_lookup2 _ _ _ _ _ _ Hpq Ha Hb) as (i & j & Hij & Hi & Hj & Hmi & Hmj).
  pose proof (lookup_lt_Some _ _ _ Hj) as Hlt.
  pose proof (marks_upto_separated threshold messages (length messages)
                ltac:(lia) i j) as Hsep.
  unfold message_at in Hsep. rewrite Hi, Hj in Hsep. simpl in Hsep.
  assert (H : similar threshold (embedding a) (embedding b) = false).
  { apply Hsep; [lia|lia|done..]. }
  split; [done|]. unfold similar in *. by rewrite cosineSimilarity_sym.
Qed.

Lemma survivors_not_similar_witness :
  similar default_threshold (Some [1; 0]%float) (Some [0; 1]%float) = false /\
  similar default_threshold (Some [0; 1]%float) (Some [1; 0]%float) = false.
Proof.
  apply (survivors_not_similar default_threshold scenario 0 1
           (document 1 100 [1; 0]%float) (document 3 80 [0; 1]%float));
    [lia | vm_compute; reflexivity ..].
Defined.

(** Whatever the scan of [i] marks, it leaves a message unmarked. *)
Lemma scan_leaves_one threshold messages i js D :
  i < length D -> Forall (fun j => i <> j /\ j < length D) js ->
  marked D i = false ->
  exists k, k < length D /\ marked (scan threshold messages i js D) k = false.
Proof.
  revert D. induction js as [|j js IH]; intros D Hi Hjs HDi; simpl.
  { by exists i. }
  apply Forall_cons in Hjs as [[Hij Hj] Hjs].
  destruct (marked D j || negb (has_embedding (message_at messages j))) eqn:Hskip;
    [by apply IH|].
  apply orb_false_iff in Hskip as [HDj _].
  destruct (similar threshold _ _); [|by apply IH].
  destruct (_ <? _).
  - destruct (IH (<[j:=true]> D)) as (k & Hk & Hmk);
      rewrite ?length_insert, ?marked_insert_ne; try done.
    exists k. by rewrite length_insert in Hk.
  - exists j. split; [done|]. by rewrite marked_insert_ne.
Qed.

Lemma foldl_visit_leaves_one threshold messages is_ D :
  length D = length messages ->
  Forall (fun i => i < length messages) is_ ->
  (exists k, k < length messages /\ marked D k = false) ->
  exists k, k < length messages /\
    marked (foldl (visit threshold messages) D is_) k = false.
Proof.
  revert D. induction is_ as [|i is_ IH]; intros D HD His Hex; simpl; [done|].
  apply Forall_cons in His as [Hi His].
  apply IH; [by rewrite length_visit|done|].
  unfold visit.
  destruct (marked D i || negb (has_embedding (message_at messages i))) eqn:Hg;
    [done|].
  apply orb_false_iff in Hg as [HDi _].
  destruct (scan_leaves_one threshold messages i
              (seq (S i) (length messages - S i)) D) as (k & Hk & Hmk);
    [lia| |done|].
  - rewrite HD. apply Forall_seq_after.
  - exists k. split; [lia|done].
Qed.

(** [deduplicate] never removes every message. *)
Theorem deduplicate_nonempty (threshold : float) (messages : list Msg) :
  messages <> [] -> deduplicate threshold messages <> [].
Proof.
  intros Hne.
  destruct (foldl_visit_leaves_one threshold messages (seq 0 (length messages))
              (replicate (length messages) false)) as (k & Hk & Hmk).
  - apply length_replicate.
  - apply Forall_forall. intros i Hi%elem_of_seq. lia.
  - exists 0. split; [|apply marked_replicate].
    destruct messages; [done|simpl; lia].
  - destruct (lookup_lt_is_Some_2 messages k Hk) as [m Hm].
    unfold deduplicate. rewrite collect_keep.
    pose proof (keep_unmarked messages (marks threshold messages) k m Hm Hmk) as Hin.
    intros E. rewrite E in Hin. by apply elem_of_nil in Hin.
Qed.

Lemma deduplicate_nonempty_witness : deduplicate default_threshold fan <> [].
Proof. apply deduplicate_nonempty. discriminate. Defined.

Lemma scan_partner threshold messages i js D k :
  has_embedding (message_at messages i) = true ->
  Forall (fun j => i < j < length messages) js ->
  (marked D k = true -> has_partner threshold messages k) ->
  marked (scan threshold messages i js D) k = true ->
  has_partner threshold messages k.
Proof.
  intros Hei. revert D. induction js as [|j js IH]; intros D Hjs HD; simpl; [done|].
  apply Forall_cons in Hjs as [Hj Hjs].
  destruct (marked D j || negb (has_embedding (message_at messages j))) eqn:Hskip;
    [by apply IH|].
  apply orb_false_iff in Hskip as [_ Hej%negb_false_iff].
  destruct (similar threshold _ _) eqn:Hsim; [|by apply IH].
  destruct (_ <? _) eqn:Hlen.
  - apply IH; [done|]. rewrite marked_insert.
    intros [Hk|Hk]%orb_true_iff; [by apply HD|].
    apply andb_true_iff in Hk as [<-%bool_decide_eq_true _].
    apply Nat.ltb_lt in Hlen.
    exists i. split; [lia|]. split; [done|]. split; [done|]. left. split; [lia|done].
  - rewrite marked_insert. intros [Hk|Hk]%orb_true_iff; [by apply HD|].
    apply andb_true_iff in Hk as [<-%bool_decide_eq_true _].
    apply Nat.ltb_ge in Hlen.
    exists j. split; [lia|]. split; [done|]. split; [done|]. right. split; [lia|done].
Qed.

Lemma foldl_visit_partner threshold messages is_ D k :
  (marked D k = true -> has_partner threshold messages k) ->
  marked (foldl (visit threshold messages) D is_) k = true ->
  has_partner threshold messages k.
Proof.
  revert D. induction is_ as [|i is_ IH]; intros D HD; simpl; [done|].
  apply IH. unfold visit.
  destruct (marked D i || negb (has_embedding (message_at messages i))) eqn:Hg;
    [done|].
  apply orb_false_iff in Hg as [_ Hei%negb_false_iff].
  apply scan_partner; [done| |done].
  apply Forall_forall. intros j Hj%elem_of_seq. lia.
Qed.

(** A message is removed only when the list holds a similar message whose
    body is at least as long; a message without such a partner is in the
    result. *)
Theorem removed_has_partner (threshold : float) (messages : list Msg)
    (k : nat) (m : Msg) :
  messages !! k = Some m ->
  (marked (marks threshold messages) k = true -> has_partner threshold messages k) /\
  (~ has_partner threshold messages k -> m ∈ deduplicate threshold messages).
Proof.
  intros Hk.
  assert (H : marked (marks threshold messages) k = true ->
              has_partner threshold messages k).
  { apply foldl_visit_partner. by rewrite marked_replicate. }
  split; [done|]. intros Hno. unfold deduplicate. rewrite collect_keep.
  apply (keep_unmarked _ _ k); [done|].
  destruct (marked (marks threshold messages) k); [|done]. by destruct Hno; apply H.
Qed.

Lemma removed_has_partner_witness :
  has_partner default_threshold scenario 1.
Proof.
  refine (proj1 (removed_has_partner default_threshold scenario 1 _ eq_refl) _).
  vm_compute. reflexivity.
Defined.

(** A list in which no message is similar to a later one is returned as
    it is. *)
Theorem deduplicate_identity (threshold : float) (messages : list Msg) :
  (forall p q a b, p < q -> messages !! p = Some a -> messages !! q = Some b ->
     has_embedding a = true -> has_embedding b = true ->
     similar threshold (embedding a) (embedding b) = false) ->
  deduplicate threshold messages = messages.
Proof.
  intros H. unfold deduplicate.
  by rewrite (marks_nothing threshold messages H), collect_keep, keep_replicate.
Qed.

Lemma deduplicate_identity_witness : deduplicate default_threshold apart = apart.
Proof.
  apply deduplicate_identity. intros p q a b Hpq Ha Hb _ _.
  destruct p as [|[|p]]; destruct q as [|[|q]]; simpl in Ha, Hb; try lia;
    try discriminate.
  injection Ha as <-. injection Hb as <-. vm_compute. reflexivity.
Defined.
End DedupFacts.

(** ** The rate limiter *)

Module RateLimiterFacts.
Import RateLimiter.

Local Open Scope Z_scope.

Section Limiter.
Variable env : Env.

Lemma fresh_later window now now' l :
  now <= now' -> fresh window now' (fresh window now l) = fresh window now' l.
Proof.
  intros H. unfold fresh. rewrite list_filter_filter.
  apply list_filter_iff. intros t. lia.
Qed.

Lemma now_pause ms w : now w <= now (pause env ms w).
Proof. unfold pause. simpl. lia. Qed.

Lemma now_pause_ge ms w : now w + ms <= now (pause env ms w).
Proof. unfold pause. simpl. lia. Qed.

Lemma synced_later rl w w' log :
  now w <= now w' -> synced rl w log -> synced rl w' log.
Proof.
  unfold synced. intros H E.
  rewrite <- (fresh_later _ _ _ log H), <- (fresh_later _ _ _ (requestTimestamps rl) H).
  by rewrite E.
Qed.

Lemma synced_recent rl w log :
  synced rl w log -> synced (with_timestamps rl (recent rl (now w))) w log.
Proof.
  unfold synced, recent. simpl. intros ->. fold (fresh (timeWindow rl) (now w)
    (requestTimestamps rl)). by rewrite fresh_later.
Qed.

Lemma admitted_within_fresh window T now l :
  now <= T ->
  admitted_within window T l = admitted_within window T (fresh window now l).
Proof.
  intros H. unfold admitted_within, fresh. rewrite list_filter_filter.
  apply list_filter_iff. intros t. lia.
Qed.

(** Granting an admission at [now w] keeps the bound. *)
Lemma grant_bounded rl w log ts :
  synced (with_timestamps rl ts) w log ->
  (length ts < maxRequests rl)%nat ->
  bounded rl log ->
  bounded rl (log ++ [now w]).
Proof.
  intros Hs Hlen Hb T. destruct (decide (now w <= T)) as [Hle|Hgt].
  - rewrite (admitted_within_fresh _ _ (now w)) by done.
    unfold fresh at 1. rewrite filter_app. fold (fresh (timeWindow rl) (now w) log).
    unfold synced in Hs. simpl in Hs. rewrite Hs.
    unfold admitted_within. etrans; [apply length_filter|].
    rewrite length_app. etrans; [apply Nat.add_le_mono; apply length_filter|].
    simpl. lia.
  - unfold admitted_within. rewrite filter_app, length_app.
    rewrite (filter_cons_False _ (now w)) by lia. simpl. rewrite Nat.add_0_r. apply Hb.
Qed.

Lemma throttle_grants fuel rl w rl' w' log :
  synced rl w log -> bounded rl log ->
  throttle env fuel rl w = Some (rl', w') ->
  synced rl' w' (log ++ [now w']) /\ bounded rl' (log ++ [now w']) /\
  maxRequests rl' = maxRequests rl /\ timeWindow rl' = timeWindow rl /\
  now w <= now w'.
Proof.
  revert rl w. induction fuel as [|fuel IH]; intros rl w Hs Hb; simpl; [done|].
  pose proof (synced_recent rl w log Hs) as Hs1.
  case_bool_decide as Hfull.
  - intros H. apply IH in H as (? & ? & ? & ? & ?).
    + repeat split; try done. etrans; [apply now_pause|done].
    + eapply synced_later; [apply now_pause|done].
    + done.
  - intros [= <- <-]. repeat split; try done.
    + unfold synced in *. simpl in *. unfold fresh in *.
      by rewrite !filter_app, Hs1.
    + apply (grant_bounded rl w log (recent rl (now w))); [done|lia|done].
Qed.

Lemma acquisitions_bounded fuel n rl w log :
  synced rl w log -> bounded rl log ->
  bounded rl (log ++ acquisitions env fuel n rl w).
Proof.
  revert rl w log. induction n as [|n IH]; intros rl w log Hs Hb; simpl.
  { by rewrite app_nil_r. }
  destruct (throttle env fuel rl (pause env 0 w)) as [[rl' w']|] eqn:E.
  - apply throttle_grants with (log := log) in E as (Hs' & Hb' & Hm & Hw & _);
      [|by eapply synced_later; [apply now_pause|]|done].
    rewrite cons_middle, app_assoc.
    intros T. specialize (IH rl' w' (log ++ [now w']) Hs' Hb' T).
    by rewrite Hm, Hw in IH.
  - by rewrite app_nil_r.
Qed.

(** C5: in a sequence of acquisitions made one after the other, the
    admissions that [throttle] grants inside any trailing window of length
    [timeWindow] are at most [maxRequests]. *)
Theorem throttle_admission_bound (fuel n maxRequests : nat) (timeWindow : Z)
    (w : World) (T : Z) :
  (length (admitted_within timeWindow T
             (acquisitions env fuel n (new maxRequests timeWindow) w))
   <= maxRequests)%nat.
Proof.
  apply (acquisitions_bounded fuel n (new maxRequests timeWindow) w []).
  - done.
  - intros T'. simpl. lia.
Qed.

Lemma timer_delay_small (z : Z) : 0 <= z <= max_delay -> timer_delay z = z.
Proof. intros H. unfold timer_delay. by rewrite bool_decide_eq_true_2. Qed.

Lemma steady_later rl w w' : now w <= now w' -> steady rl w -> steady rl w'.
Proof.
  intros Hle (Hpos & Hlen & Hwin & Hpast). repeat split; try done.
  eapply Forall_impl; [done|]. simpl. lia.
Qed.

(** A steady limiter grants after at most one wait and stays steady. *)
Lemma throttle_wait_once fuel rl w :
  steady rl w ->
  exists rl' w',
    throttle env (S (S fuel)) rl w = Some (rl', w') /\
    steady rl' w' /\
    maxRequests rl' = maxRequests rl /\ timeWindow rl' = timeWindow rl /\
    now w <= now w' /\
    requestTimestamps rl' = recent rl (now w') ++ [now w'] /\
    (((length (recent rl (now w)) < maxRequests rl)%nat /\ w' = w) \/
     (exists oldest,
        head (recent rl (now w)) = Some oldest /\
        (maxRequests rl <= length (recent rl (now w)))%nat /\
        0 <= timeWindow rl - (now w - oldest) + 100 <= max_delay /\
        w' = setTimeout env (timeWindow rl - (now w - oldest) + 100) w /\
        oldest + timeWindow rl + 100 <= now w')).
Proof.
  intros (Hpos & Hlen & Hwin & Hpast).
  assert (Hrecent : (length (recent rl (now w)) <= maxRequests rl)%nat).
  { etrans; [apply length_filter|done]. }
  assert (Hsteady : forall w', now w <= now w' ->
            (length (recent rl (now w')) < maxRequests rl)%nat ->
            steady (with_timestamps rl (recent rl (now w') ++ [now w'])) w').
  { intros w' Hle Hr. repeat split; cbn [maxRequests timeWindow requestTimestamps
                                          with_timestamps]; try done.
    - rewrite length_app. cbn [length]. lia.
    - apply Forall_app. split; [|by repeat constructor].
      apply Forall_forall. intros t [_ Hin]%list_elem_of_filter.
      eapply Forall_forall in Hpast; [|done]. simpl in Hpast. lia. }
  cbn [throttle]. case_bool_decide as Hfull.
  - destruct (recent rl (now w)) as [|oldest ts] eqn:Ets; [simpl in Hfull; lia|].
    assert (Hold : now w - oldest < timeWindow rl /\ oldest <= now w).
    { assert (Hin : oldest ∈ recent rl (now w)) by (rewrite Ets; by left).
      apply list_elem_of_filter in Hin as [? Hin]. split; [done|].
      by eapply Forall_forall in Hpast. }
    assert (Hdelay : 0 <= timeWindow rl - (now w - oldest) + 100 <= max_delay) by lia.
    cbn [head]. set (w1 := setTimeout env _ w).
    assert (Hw1 : now w + (timeWindow rl - (now w - oldest) + 100) <= now w1).
    { unfold w1, setTimeout. rewrite timer_delay_small by done. apply now_pause_ge. }
    assert (Hlater : now w <= now w1) by apply now_pause.
    set (rl1 := with_timestamps rl (oldest :: ts)).
    assert (Hsame : recent rl1 (now w1) = recent rl (now w1)).
    { unfold rl1. rewrite <- Ets. unfold recent. cbn [requestTimestamps with_timestamps timeWindow].
      apply (fresh_later (timeWindow rl) (now w) (now w1) (requestTimestamps rl) Hlater). }
    assert (Hr : (length (recent rl1 (now w1)) < maxRequests rl)%nat).
    { unfold recent, rl1. cbn [requestTimestamps with_timestamps timeWindow].
      rewrite filter_cons_False by lia.
      pose proof (length_filter (fun t => now w1 - t < timeWindow rl) ts).
      cbn [length] in Hrecent. lia. }
    cbn [throttle]. change (maxRequests rl1) with (maxRequests rl).
    rewrite bool_decide_eq_false_2 by lia.
    eexists _, _. split; [done|]. rewrite Hsame in *.
    split; [by apply Hsteady|]. split; [done|]. split; [done|]. split; [done|].
    split; [done|]. right. exists oldest.
    split; [done|]. split; [done|]. split; [done|]. split; [done|lia].
  - eexists _, _. split; [done|]. split; [apply Hsteady; [done|lia]|].
    split; [done|]. split; [done|]. split; [done|]. split; [done|].
    left. split; [lia|done].
Qed.

(** [throttle] returns after at most one wait. *)
Lemma throttle_returns fuel rl w :
  steady rl w ->
  exists rl' w',
    throttle env (S (S fuel)) rl w = Some (rl', w') /\
    steady rl' w' /\ now w <= now w'.
Proof.
  intros H. destruct (throttle_wait_once fuel rl w H)
    as (rl' & w' & Ht & Hs & _ & _ & Hle & _).
  by exists rl', w'.
Qed.

(** A limiter that admits at least one request, with a window a timer can
    wait for, grants every acquisition. *)
Lemma acquisitions_all_granted fuel n rl w :
  steady rl w ->
  length (acquisitions env (S (S fuel)) n rl w) = n.
Proof.
  revert rl w. induction n as [|n IH]; intros rl w Hs; [done|].
  cbn [acquisitions].
  destruct (throttle_returns fuel rl (pause env 0 w))
    as (rl' & w' & -> & Hs' & _).
  { eapply steady_later; [apply now_pause|done]. }
  cbn [length]. f_equal. by apply IH.
Qed.

(** *** Waiting, and the order of the timestamps *)

(** A limiter that allows at least one request, holds at most that many
    timestamps, none of them in the future, and whose window plus 100 ms is
    a delay a timer waits for (at most 2^31 - 1 ms), waits at most once.
    Below the limit it grants at once, without suspending the caller; at
    the limit it sets one timer, for the time the oldest timestamp needs to
    leave the window plus 100 ms, and grants when the timer has fired.  The
    limiter then holds the timestamps still inside the window and the new
    one. *)
Theorem throttle_one_wait fuel rl w :
  (0 < maxRequests rl)%nat ->
  (length (requestTimestamps rl) <= maxRequests rl)%nat ->
  timeWindow rl + 100 <= max_delay ->
  Forall (fun t => t <= now w) (requestTimestamps rl) ->
  exists rl' w',
    throttle env (S (S fuel)) rl w = Some (rl', w') /\
    requestTimestamps rl' = recent rl (now w') ++ [now w'] /\
    (((length (recent rl (now w)) < maxRequests rl)%nat /\ w' = w) \/
     (exists oldest,
        head (recent rl (now w)) = Some oldest /\
        (maxRequests rl <= length (recent rl (now w)))%nat /\
        0 <= timeWindow rl - (now w - oldest) + 100 <= max_delay /\
        w' = setTimeout env (timeWindow rl - (now w - oldest) + 100) w /\
        oldest + timeWindow rl + 100 <= now w')).
Proof.
  intros Hpos Hlen Hwin Hpast.
  destruct (throttle_wait_once fuel rl w) as (rl' & w' & Ht & _ & _ & _ & _ & Hts & Hcase).
  { by repeat split. }
  exists rl', w'. split; [done|]. split; [done|exact Hcase].
Qed.

(** A limiter that allows no request never grants: [throttle] keeps
    setting timers. *)
Theorem throttle_zero_never_grants fuel rl w :
  maxRequests rl = 0%nat -> throttle env fuel rl w = None.
Proof.
  revert rl w. induction fuel as [|fuel IH]; intros rl w Hzero; [done|].
  cbn [throttle]. rewrite bool_decide_eq_true_2 by lia. by apply IH.
Qed.

Lemma chronological_recent rl w :
  chronological rl w -> chronological (with_timestamps rl (recent rl (now w))) w.
Proof.
  intros [Hsorted Hpast]. unfold chronological, recent. cbn [requestTimestamps with_timestamps].
  split.
  - induction Hsorted as [|t ts _ IH Ht]; [constructor|].
    apply Forall_cons in Hpast as [_ Hpast]. rewrite filter_cons.
    destruct (decide _); [|by apply IH].
    constructor; [by apply IH|].
    apply Forall_forall. intros t' [_ Hin]%list_elem_of_filter.
    by eapply Forall_forall in Ht.
  - apply Forall_forall. intros t [_ Hin]%list_elem_of_filter.
    by eapply Forall_forall in Hpast.
Qed.

Lemma chronological_later rl w w' :
  now w <= now w' -> chronological rl w -> chronological rl w'.
Proof.
  intros Hle [Hsorted Hpast]. split; [done|].
  eapply Forall_impl; [done|]. simpl. lia.
Qed.

(** [throttle] keeps the timestamps in the order of the clock, so the first
    one, which it takes for the oldest, is the oldest. *)
Theorem throttle_chronological fuel rl w rl' w' :
  chronological rl w ->
  throttle env fuel rl w = Some (rl', w') ->
  chronological rl' w' /\
  (forall oldest t, head (requestTimestamps rl') = Some oldest ->
     t ∈ requestTimestamps rl' -> oldest <= t).
Proof.
  intros Hc Ht.
  assert (H : chronological rl' w').
  { revert rl w Hc Ht. induction fuel as [|fuel IH]; intros rl w Hc; [done|].
    cbn [throttle]. pose proof (chronological_recent rl w Hc) as Hc1.
    case_bool_decide.
    - apply IH. by eapply chronological_later; [apply now_pause|].
    - intros [= <- <-]. destruct Hc1 as [Hs Hp]. split.
      + cbn [requestTimestamps with_timestamps] in *.
        apply StronglySorted_app_2; [|done|repeat constructor].
        intros t1 t2 Ht1 ->%list_elem_of_singleton.
        by eapply Forall_forall in Hp.
      + cbn [requestTimestamps with_timestamps] in *.
        apply Forall_app. split; [done|]. by repeat constructor. }
  split; [done|]. destruct H as [Hs _].
  intros oldest t Hhead Hin.
  destruct (requestTimestamps rl') as [|t0 ts]; [done|].
  injection Hhead as ->. apply StronglySorted_cons in Hs as [Hall _].
  apply elem_of_cons in Hin as [->|Hin]; [lia|].
  by eapply Forall_forall in Hall.
Qed.
End Limiter.

(** Two requests per second, three acquisitions in a row on a prompt host:
    the third one waits for the window to pass. *)
Example acquisitions_sample :
  acquisitions (mkEnv (fun _ => 0%N) (fun _ _ => Rejected)) 2 3 (new 2 1000%Z)
               (mkWorld 0 0)
  = [0; 0; 1100].
Proof. reflexivity. Qed.


(** One request per second, asked for again half a second after the first:
    the caller waits 600 ms and is admitted at 1100. *)
Lemma throttle_one_wait_witness :
  exists rl' w',
    throttle EmbeddingService.unreachable 2 (mk 1 1000 [0]) (mkWorld 500 0)
      = Some (rl', w') /\
    requestTimestamps rl' = [1100] /\ now w' = 1100.
Proof.
  destruct (throttle_one_wait EmbeddingService.unreachable 0 (mk 1 1000 [0])
              (mkWorld 500 0)) as (rl' & w' & Ht & Hts & Hw);
    [simpl; lia | simpl; lia | vm_compute; discriminate
    | apply (bool_decide_unpack _); vm_compute; exact I |].
  exists rl', w'. split; [exact Ht|].
  vm_compute in Ht. injection Ht as <- <-. split; reflexivity.
Defined.

Lemma throttle_zero_never_grants_witness :
  throttle EmbeddingService.unreachable 1000 (new 0 60000) (mkWorld 0 0) = None.
Proof. apply throttle_zero_never_grants. reflexivity. Defined.


Lemma throttle_chronological_witness :
  chronological (mk 3 1000 [100; 400; 900]) (mkWorld 900 0).
Proof.
  refine (proj1 (throttle_chronological EmbeddingService.unreachable 1
                   (mk 3 1000 [100; 400]) (mkWorld 900 0)
                   (mk 3 1000 [100; 400; 900]) (mkWorld 900 0) _ _)).
  - split; apply (bool_decide_unpack _); vm_compute; exact I.
  - vm_compute. reflexivity.
Defined.
End RateLimiterFacts.

(** ** The cache *)

Module CacheFacts.
Import EmbeddingCache.

Section Cache.
Context {V : Type}.
Variable getKey : string -> string.

Abbreviation cache_t := (EmbeddingCache.t V).

Lemma keys_map_set (key : string) (value : V) (m : list (string * V)) :
  (map_set key value m).*1
  = if bool_decide (key ∈ m.*1) then m.*1 else m.*1 ++ [key].
Proof.
  induction m as [|[k v] m IH]; [done|]. cbn [map_set fmap list_fmap fst].
  destruct (decide (key = k)) as [->|Hne]; cbn [fmap list_fmap fst].
  - rewrite bool_decide_eq_true_2; [done|]. by left.
  - rewrite IH. case_bool_decide as Hin.
    + rewrite bool_decide_eq_true_2; [done|]. by right.
    + rewrite bool_decide_eq_false_2; [done|].
      intros [?|?]%elem_of_cons; done.
Qed.

Lemma length_map_set (key : string) (value : V) (m : list (string * V)) :
  length (map_set key value m)
  = if bool_decide (key ∈ m.*1) then length m else S (length m).
Proof.
  rewrite <- (length_fmap fst (map_set key value m)), keys_map_set.
  case_bool_decide; rewrite ?length_app, length_fmap; simpl; lia.
Qed.

Lemma map_set_NoDup (key : string) (value : V) (m : list (string * V)) :
  NoDup m.*1 -> NoDup (map_set key value m).*1.
Proof.
  intros H. rewrite keys_map_set. case_bool_decide as Hin; [done|].
  apply NoDup_app. split; [done|]. split; [|apply NoDup_singleton].
  intros k Hk ->%list_elem_of_singleton. done.
Qed.

Lemma map_delete_absent (key : string) (m : list (string * V)) :
  key ∉ m.*1 -> map_delete key m = m.
Proof.
  unfold map_delete. induction m as [|[k v] m IH]; intros H; [done|].
  simpl in H. rewrite filter_cons_True.
  - rewrite IH; [done|]. intros ?. apply H. by right.
  - simpl. intros ->. apply H. by left.
Qed.

Lemma map_delete_first (key : string) (value : V) (m : list (string * V)) :
  NoDup ((key, value) :: m).*1 -> map_delete key ((key, value) :: m) = m.
Proof.
  simpl. intros [Hk _]%NoDup_cons. unfold map_delete.
  rewrite filter_cons_False by (simpl; intros ?; done).
  by apply map_delete_absent.
Qed.

(** At capacity the first entry of the map goes, and only that one. *)
Lemma evict_tail (c : cache_t) :
  NoDup (keys c) -> cache (evict c) = tail (cache c).
Proof.
  unfold evict, keys. destruct c as [[|[k v] m] n]; simpl; [done|].
  intros H. by apply map_delete_first.
Qed.

Lemma maxSize_evict (c : cache_t) : maxSize (evict c) = maxSize c.
Proof. unfold evict. by repeat case_match. Qed.

Lemma cache_set (c : cache_t) (text : string) (embedding : V) :
  NoDup (keys c) ->
  cache (set getKey c text embedding) = map_set (getKey text) embedding (kept c).
Proof.
  intros H. unfold set, kept. case_bool_decide; simpl; [|done].
  by rewrite evict_tail.
Qed.

Lemma maxSize_set (c : cache_t) (text : string) (embedding : V) :
  maxSize (set getKey c text embedding) = maxSize c.
Proof. unfold set. case_bool_decide; simpl; [apply maxSize_evict|done]. Qed.

Lemma kept_NoDup (c : cache_t) : NoDup (keys c) -> NoDup (kept c).*1.
Proof.
  unfold kept, keys. case_bool_decide; [|done].
  destruct (cache c) as [|[k v] m]; simpl; [done|]. by intros [_ ?]%NoDup_cons.
Qed.

Lemma set_wf (c : cache_t) (text : string) (embedding : V) :
  0 < maxSize c -> wf c -> wf (set getKey c text embedding).
Proof.
  intros Hpos [Hnd Hsize]. split.
  - unfold keys. rewrite cache_set by done. by apply map_set_NoDup, kept_NoDup.
  - unfold size in *. rewrite cache_set, maxSize_set, length_map_set by done.
    assert (Hkept : S (length (kept c)) <= maxSize c).
    { unfold kept, size. case_bool_decide as Hfull; [|lia].
      destruct (cache c) as [|e m]; cbn [tail length] in *; lia. }
    case_bool_decide; lia.
Qed.

Lemma after_sets_snoc (n : nat) (puts : list (string * V)) (p : string * V) :
  after_sets getKey n (puts ++ [p]) = set getKey (after_sets getKey n puts) p.1 p.2.
Proof. unfold after_sets. by rewrite foldl_app. Qed.

Lemma after_sets_wf (n : nat) (puts : list (string * V)) :
  0 < n -> wf (after_sets getKey n puts) /\ maxSize (after_sets getKey n puts) = n.
Proof.
  intros Hpos. induction puts as [|p puts IH] using rev_ind.
  - split; [|done]. split; [apply NoDup_nil_2|]. unfold size. cbn. lia.
  - destruct IH as [Hwf Hmax]. rewrite after_sets_snoc, maxSize_set.
    split; [|done]. apply set_wf; [lia|done].
Qed.

(** C4, amended: with a capacity of at least one entry, after any
    sequence of [set] calls the cache holds at most [maxSize] entries.  A
    [set] at capacity first drops one entry, the
    first of the map, which is the one inserted longest ago: a new key
    goes to the end of the map and a key that is already there keeps its
    place, so writing does not refresh an entry (and [get] changes
    nothing).  The new entry is written after that. *)
Theorem cache_bound_fifo (maxSize : nat) (puts : list (string * V)) :
  0 < maxSize ->
  let c := after_sets getKey maxSize puts in
  size c <= maxSize /\
  forall text embedding,
    let c' := set getKey c text embedding in
    let rest := if bool_decide (size c = maxSize) then tail (cache c) else cache c in
    (size c = maxSize -> S (length rest) = maxSize) /\
    cache c' = map_set (getKey text) embedding rest /\
    keys c' = (if bool_decide (getKey text ∈ rest.*1) then rest.*1
               else rest.*1 ++ [getKey text]) /\
    size c' <= maxSize.
Proof.
  intros Hpos c. destruct (after_sets_wf maxSize puts Hpos) as [[Hnd Hsize] Hmax].
  fold c in Hnd, Hsize, Hmax. rewrite Hmax in Hsize. split; [done|].
  intros text embedding c' rest.
  assert (Hrest : rest = kept c).
  { unfold rest, kept. rewrite Hmax.
    repeat case_bool_decide; try done; lia. }
  split; [|split; [|split]].
  - intros Hfull. unfold rest. rewrite bool_decide_eq_true_2 by done.
    unfold size in Hfull. destruct (cache c) as [|e m]; cbn [tail length] in *;
      [clear - Hpos Hfull; lia|done].
  - unfold c'. by rewrite cache_set, Hrest.
  - unfold keys, c'. by rewrite cache_set, keys_map_set, Hrest.
  - assert (Hwf : wf c) by (split; [done|by rewrite Hmax]).
    assert (Hpos' : 0 < EmbeddingCache.maxSize c) by by rewrite Hmax.
    destruct (set_wf c text embedding Hpos' Hwf) as [_ H].
    by rewrite maxSize_set, Hmax in H.
Qed.

(** C10: a [set] on a full cache drops the oldest entry whether or not
    the key is already in the cache.  When the key is that of another entry
    than the oldest, the oldest entry is lost although no entry is added,
    and the cache is left with [maxSize - 1] entries. *)
Theorem set_existing_key_at_capacity (maxSize : nat) (puts : list (string * V))
    (text : string) (embedding : V) (oldest : string * V)
    (rest : list (string * V)) :
  let c := after_sets getKey maxSize puts in
  size c = maxSize ->
  cache c = oldest :: rest ->
  let c' := set getKey c text embedding in
  cache c' = map_set (getKey text) embedding rest /\
  (getKey text ∈ rest.*1 ->
   (oldest.1 ∉ keys c') /\
   (oldest.1 <> getKey text) /\
   keys c' = rest.*1 /\
   S (size c') = maxSize /\
   size c' < maxSize).
Proof.
  intros c Hfull Hc c'.
  assert (Hpos : 0 < maxSize).
  { unfold size in Hfull. rewrite Hc in Hfull. simpl in Hfull. lia. }
  destruct (after_sets_wf maxSize puts Hpos) as [[Hnd Hsize] Hmax].
  fold c in Hnd, Hsize, Hmax.
  assert (Hkept : kept c = rest).
  { unfold kept. rewrite bool_decide_eq_true_2 by lia. by rewrite Hc. }
  split; [by unfold c'; rewrite cache_set, Hkept|]. intros Hin.
  assert (Hnd' : oldest.1 ∉ rest.*1).
  { unfold keys in Hnd. rewrite Hc in Hnd. simpl in Hnd.
    by apply NoDup_cons in Hnd as [? _]. }
  assert (Hkeys : keys c' = rest.*1).
  { unfold keys, c'. rewrite cache_set, keys_map_set, Hkept by done.
    by rewrite bool_decide_eq_true_2. }
  assert (Hlen : S (size c') = maxSize).
  { unfold size. rewrite <- (length_fmap fst (cache c')). fold (keys c').
    rewrite Hkeys, length_fmap. unfold size in Hfull. rewrite Hc in Hfull.
    simpl in Hfull. done. }
  split; [by rewrite Hkeys|]. split; [by intros E; rewrite E in Hnd'|].
  split; [done|]. split; [done|lia].
Qed.
End Cache.


(** *** Reading after writing *)

Lemma map_get_set_eq {V : Type} (key : string) (value : V) (m : list (string * V)) :
  map_get key (map_set key value m) = Some value.
Proof.
  induction m as [|[k v] m IH]; simpl.
  - by rewrite decide_True.
  - destruct (decide (key = k)) as [->|Hne]; simpl.
    + by rewrite decide_True.
    + by rewrite decide_False.
Qed.

Lemma map_get_set_ne {V : Type} (key key' : string) (value : V)
    (m : list (string * V)) :
  key' <> key -> map_get key' (map_set key value m) = map_get key' m.
Proof.
  intros Hne. induction m as [|[k v] m IH]; simpl.
  - by rewrite decide_False.
  - destruct (decide (key = k)) as [->|Hk]; simpl.
    + by rewrite !decide_False.
    + destruct (decide (key' = k)); [done|apply IH].
Qed.

Lemma map_get_absent {V : Type} (key : string) (m : list (string * V)) :
  key ∉ m.*1 -> map_get key m = None.
Proof.
  induction m as [|[k v] m IH]; simpl; [done|]. intros Hin.
  rewrite decide_False; [apply IH|]; intros ?; apply Hin; subst; by constructor.
Qed.

Lemma set_NoDup {V : Type} (getKey : string -> string) (c : t V)
    (text : string) (embedding : V) :
  NoDup (keys c) -> NoDup (keys (set getKey c text embedding)).
Proof.
  intros H. unfold keys. rewrite cache_set by done.
  by apply map_set_NoDup, kept_NoDup.
Qed.

Lemma after_sets_NoDup {V : Type} (getKey : string -> string) (n : nat)
    (puts : list (string * V)) :
  NoDup (keys (after_sets getKey n puts)).
Proof.
  induction puts as [|p puts IH] using rev_ind.
  - apply NoDup_nil_2.
  - rewrite after_sets_snoc. by apply set_NoDup.
Qed.

(** What [set] wrote is what [get] reads, for the text and for every text
    with the same key, whatever the state and the capacity of the cache. *)
Theorem get_after_set {V : Type} (getKey : string -> string) (c : t V)
    (text text' : string) (embedding : V) :
  get getKey (set getKey c text embedding) text = Some embedding /\
  (getKey text' = getKey text ->
   get getKey (set getKey c text embedding) text' = Some embedding).
Proof.
  assert (H : forall k, k = getKey text ->
            map_get k (cache (set getKey c text embedding)) = Some embedding).
  { intros k ->. unfold set. simpl. apply map_get_set_eq. }
  split; [by apply H|]. intros E. by apply H.
Qed.

(** A [set] changes what [get] reads for no other key, except that on a
    full cache the first key of the map reads [undefined] afterwards. *)
Theorem set_keeps_other_keys {V : Type} (getKey : string -> string)
    (maxSize : nat) (puts : list (string * V)) (text text' : string)
    (embedding : V) :
  let c := after_sets getKey maxSize puts in
  getKey text' <> getKey text ->
  get getKey (set getKey c text embedding) text'
  = if bool_decide (EmbeddingCache.maxSize c <= size c
                    /\ head (keys c) = Some (getKey text'))
    then None else get getKey c text'.
Proof.
  intros c Hne. pose proof (after_sets_NoDup getKey maxSize puts) as Hnd.
  fold c in Hnd. unfold get. rewrite cache_set by done.
  rewrite map_get_set_ne by done. unfold kept, keys in *.
  destruct (cache c) as [|[k v] m] eqn:Ec; simpl in *.
  { repeat case_bool_decide; naive_solver. }
  apply NoDup_cons in Hnd as [Hk _].
  case_bool_decide as Hfull; simpl.
  - destruct (decide (getKey text' = k)) as [->|Hk'].
    + rewrite bool_decide_eq_true_2 by done. by apply map_get_absent.
    + rewrite bool_decide_eq_false_2; [done|]. intros [_ [= ?]]. done.
  - rewrite bool_decide_eq_false_2; [done|]. intros [? _]. done.
Qed.

Lemma set_keeps_other_keys_witness :
  let c := after_sets digest 2 [("a", 1); ("b", 2)] in
  get digest (set digest c "c" 3) "b" = Some 2 /\
  get digest (set digest c "c" 3) "a" = None.
Proof.
  split.
  - apply (set_keeps_other_keys digest 2 [("a", 1); ("b", 2)] "c" "b" 3). discriminate.
  - apply (set_keeps_other_keys digest 2 [("a", 1); ("b", 2)] "c" "a" 3). discriminate.
Defined.

Lemma get_after_set_witness :
  get digest (set digest (new 0) "a" 1) "a" = Some 1.
Proof.
  exact (proj2 (get_after_set digest (new 0) "a" "a" 1) eq_refl).
Defined.
(** C4, as stated for every capacity, fails: a cache made with capacity 0
    has nothing to drop and holds one entry after the first [set]. *)
Lemma zero_capacity_exceeded :
  ~ within_capacity digest 0 [("a", 1)] /\
  size (set digest (new 0) "a" 1) = 1.
Proof.
  split; [|reflexivity]. unfold within_capacity. vm_compute. lia.
Qed.

(** A cache of two entries on a stand-in digest; three texts are written. *)
Lemma cache_bound_fifo_witness :
  let c := after_sets digest 2 [("a", 1); ("b", 2); ("c", 3)] in
  size c <= 2 /\ cache c = [("b", 2); ("c", 3)].
Proof.
  split; [|reflexivity].
  apply (cache_bound_fifo digest 2 [("a", 1); ("b", 2); ("c", 3)]). lia.
Defined.

(** A full cache of three entries; the text of the second one is written
    again: the first entry is lost and two entries are left. *)
Lemma set_existing_key_at_capacity_witness :
  let c := after_sets digest 3 [("a", 1); ("b", 2); ("c", 3)] in
  cache (set digest c "b" 4) = [("b", 4); ("c", 3)] /\
  size (set digest c "b" 4) < 3.
Proof.
  destruct (set_existing_key_at_capacity digest 3
              [("a", 1); ("b", 2); ("c", 3)] "b" 4 ("a", 1) [("b", 2); ("c", 3)]
              eq_refl eq_refl) as [H1 H2].
  split; [exact H1|]. apply H2. simpl. left.
Defined.

End CacheFacts.

(** ** The embedding service *)

Module ServiceFacts.
Import EmbeddingService.

Section Service.
Variable getKey : string -> string.
Variable env : Env.

Lemma getOllamaEmbedding_later (this : t) (w : World) (text : string) :
  (now w <= now (getOllamaEmbedding env this w text).2)%Z.
Proof.
  unfold getOllamaEmbedding, fetch.
  pose proof (RateLimiterFacts.now_pause env 0 w).
  repeat case_match; simplify_eq; simpl; done.
Qed.

Lemma getGeminiEmbedding_later (this : t) (w : World) (text : string) :
  (now w <= now (getGeminiEmbedding env this w text).2)%Z.
Proof.
  unfold getGeminiEmbedding, fetch.
  pose proof (RateLimiterFacts.now_pause env 0 w).
  repeat case_match; simplify_eq; simpl; done.
Qed.

Lemma getEmbedding_returns (fuel : nat) (this : t) (w : World) (text : string) :
  ready this w ->
  exists result this' w',
    getEmbedding getKey env (S (S fuel)) this w text = Some (result, this', w') /\
    ready this' w' /\ provider this' = provider this /\ config this' = config this.
Proof.
  intros Hready. unfold getEmbedding.
  destruct (truthy _); [by eexists _, _, _|].
  destruct (RateLimiterFacts.throttle_returns env fuel (rateLimiter this) w Hready)
    as (rl' & w1 & -> & Hs & Hle).
  set (this1 := mk (provider this) (config this) (cache this) rl').
  assert (Hlater : forall r w2,
            (if decide (provider this = "ollama") then getOllamaEmbedding env this1 w1 text
             else if decide (provider this = "gemini")
                  then getGeminiEmbedding env this1 w1 text
                  else (Throw (UnsupportedProvider (provider this)), w1)) = (r, w2) ->
            (now w1 <= now w2)%Z).
  { intros r w2 Hd.
    destruct (decide (provider this = "ollama")) as [Ho|Ho].
    - pose proof (getOllamaEmbedding_later this1 w1 text) as Hl. by rewrite Hd in Hl.
    - destruct (decide (provider this = "gemini")) as [Hg|Hg].
      + pose proof (getGeminiEmbedding_later this1 w1 text) as Hl. by rewrite Hd in Hl.
      + by injection Hd as _ <-. }
  match goal with
  | |- context [let '(_, _) := ?d in _] => destruct d as [[embedding|e] w2] eqn:Hd
  end; eexists _, _, _; (split; [done|]); (split; [|done]);
    unfold ready; cbn [rateLimiter];
    (eapply RateLimiterFacts.steady_later; [by eapply Hlater|done]).
Qed.

Lemma each_message_spec {E : Type} (fuel total : nat) (messages : list (Message E))
    (count : nat) (b : Batch) :
  ready (service b) (world b) ->
  exists b',
    each_message getKey env (S (S fuel)) total messages count b = Some b' /\
    ready (service b') (world b') /\
    provider (service b') = provider (service b) /\
    length (outcomes getKey env (S (S fuel)) (service b) (world b) messages)
      = length messages /\
    messagesWithEmbeddings b'
      = messagesWithEmbeddings b
        ++ zip_with (fun m r => with_embedding m (attached r)) messages
             (outcomes getKey env (S (S fuel)) (service b) (world b) messages) /\
    progress b'
      = progress b ++ ((fun k => (k, total)) <$> seq (S count) (length messages)).
Proof.
  revert count b. induction messages as [|m ms IH]; intros count b Hready.
  { exists b. simpl. by rewrite !app_nil_r. }
  cbn [each_message outcomes].
  destruct (getEmbedding_returns fuel (service b) (world b) (body m) Hready)
    as (r & this' & w' & -> & Hready' & Hp & _).
  destruct (IH (S count) (mkBatch
      (messagesWithEmbeddings b ++ [with_embedding m (attached r)])
      (progress b ++ [(S count, total)]) this' w') Hready')
    as (b' & Hb' & Hr & Hp' & Hlen & Hout & Hprog).
  exists b'. cbn [service world messagesWithEmbeddings progress] in *.
  split.
  { rewrite <- Hb'. by destruct r. }
  split; [done|]. split; [congruence|]. split; [simpl; by rewrite Hlen|].
  split.
  - rewrite Hout, <- app_assoc. done.
  - rewrite Hprog, <- app_assoc. done.
Qed.

(** C1: [generateEmbeddingsForMessages] returns, whatever each call of
    [getEmbedding] settles to.  The result has one entry per message, in
    the order of the messages: an object with the [id], [subject], [date],
    [from] and [body] of the message and, as its [embedding], what the call
    for the message returned, or [null] when that call threw.  [onProgress]
    is called once per message, with [(1, total)], [(2, total)], ...,
    [(total, total)]. *)
Theorem generateEmbeddings_every_message {E : Type} (fuel : nat) (this : t)
    (w : World) (messages : list (Message E)) :
  ready this w ->
  exists b,
    generateEmbeddingsForMessages getKey env (S (S fuel)) this w messages = Some b /\
    ready (service b) (world b) /\
    length (messagesWithEmbeddings b) = length messages /\
    (forall k m, messages !! k = Some m ->
       exists result,
         outcomes getKey env (S (S fuel)) this w messages !! k = Some result /\
         messagesWithEmbeddings b !! k
         = Some (mkMessage (id m) (subject m) (date m) (from m) (body m)
                   match result with
                   | Return embedding => embedding
                   | Throw _ => null
                   end)) /\
    progress b = (fun k => (k, length messages)) <$> seq 1 (length messages).
Proof.
  intros Hready. unfold generateEmbeddingsForMessages.
  destruct (each_message_spec fuel (length messages) messages 0
              (mkBatch [] [] this w) Hready)
    as (b & Hb & Hready' & _ & Hlen & Hout & Hprog).
  cbn [service world messagesWithEmbeddings progress] in Hlen, Hout, Hprog.
  rewrite app_nil_l in Hout, Hprog.
  exists b. split; [done|]. split; [done|]. split.
  { rewrite Hout, length_zip_with. lia. }
  split; [|done].
  intros k m Hk.
  destruct (lookup_lt_is_Some_2 (outcomes getKey env (S (S fuel)) this w messages) k)
    as [result Hres].
  { rewrite Hlen. by eapply lookup_lt_Some. }
  exists result. split; [done|].
  rewrite Hout, lookup_zip_with, Hk, Hres. done.
Qed.

(** With a provider name that is neither of the two, every call of
    [getEmbedding] throws after the limiter has admitted it, and nothing
    is ever cached. *)
Lemma getEmbedding_unsupported (fuel : nat) (this : t) (w : World) (text : string) :
  provider this <> "ollama" -> provider this <> "gemini" ->
  EmbeddingCache.cache (cache this) = [] -> ready this w ->
  exists this' w',
    getEmbedding getKey env (S (S fuel)) this w text
    = Some (Throw (UnsupportedProvider (provider this)), this', w') /\
    ready this' w' /\ provider this' = provider this /\ cache this' = cache this.
Proof.
  intros Ho Hg Hc Hready. unfold getEmbedding, EmbeddingCache.get.
  rewrite Hc. cbn [EmbeddingCache.map_get mjoin option_join truthy].
  destruct (RateLimiterFacts.throttle_returns env fuel (rateLimiter this) w Hready)
    as (rl' & w1 & -> & Hs & _).
  rewrite !decide_False by done.
  eexists _, _. split; [done|]. done.
Qed.

Lemma outcomes_unsupported {E : Type} (fuel : nat) (messages : list (Message E))
    (this : t) (w : World) :
  provider this <> "ollama" -> provider this <> "gemini" ->
  EmbeddingCache.cache (cache this) = [] -> ready this w ->
  outcomes getKey env (S (S fuel)) this w messages
  = replicate (length messages) (Throw (UnsupportedProvider (provider this))).
Proof.
  revert this w. induction messages as [|m ms IH]; intros this w Ho Hg Hc Hr; [done|].
  cbn [outcomes].
  destruct (getEmbedding_unsupported fuel this w (body m) Ho Hg Hc Hr)
    as (this' & w' & -> & Hr' & Hp & Hc').
  simpl. f_equal. rewrite IH; rewrite ?Hp, ?Hc'; done.
Qed.
End Service.


(** *** The cache and the limiter inside [getEmbedding] *)

Lemma throttle_appends (env : Env) (fuel : nat) (rl rl' : RateLimiter.t) (w w' : World) :
  RateLimiter.throttle env fuel rl w = Some (rl', w') ->
  (now w <= now w')%Z /\
  exists ts, RateLimiter.requestTimestamps rl' = ts ++ [now w'].
Proof.
  revert rl w. induction fuel as [|fuel IH]; intros rl w; [done|].
  cbn [RateLimiter.throttle]. case_bool_decide as Hfull.
  - intros Hrec. apply IH in Hrec as [Hle Hts]. split; [|done].
    etrans; [|exact Hle]. apply RateLimiterFacts.now_pause.
  - intros [= <- <-]. split; [done|]. by eexists.
Qed.

(** An embedding that [getEmbedding] returned and that is truthy is served
    from the cache when the same text is asked for again: the same value
    comes back, at any time and without fuel, and neither the limiter nor
    the network is touched. *)
Theorem getEmbedding_again (getKey : string -> string) (env env' : Env)
    (fuel fuel' : nat) (this this' : t) (w w' w'' : World) (text : string)
    (embedding : Value) :
  getEmbedding getKey env fuel this w text = Some (Return embedding, this', w') ->
  truthy embedding = true ->
  getEmbedding getKey env' fuel' this' w'' text = Some (Return embedding, this', w'').
Proof.
  unfold getEmbedding at 1.
  destruct (truthy (mjoin (EmbeddingCache.get getKey (cache this) text))) eqn:Hhit.
  - intros [= <- <- <-] _. unfold getEmbedding. by rewrite Hhit.
  - destruct (RateLimiter.throttle env fuel (rateLimiter this) w) as [[rl1 w1]|];
      [|done].
    match goal with
    | |- context [let '(_, _) := ?d in _] => destruct d as [[value|e] w2]
    end; [|done].
    intros [= <- <- <-] Htruthy. unfold getEmbedding. cbn [cache].
    rewrite (proj1 (CacheFacts.get_after_set getKey _ text text value)).
    cbn [mjoin option_join]. simpl. by rewrite Htruthy.
Qed.

(** A call of [getEmbedding] that throws has been admitted by the limiter,
    which keeps the timestamp, and leaves the cache, the provider and its
    settings as they were. *)
Theorem getEmbedding_failure (getKey : string -> string) (env : Env)
    (fuel : nat) (this this' : t) (w w' : World) (text : string) (e : Error) :
  getEmbedding getKey env fuel this w text = Some (Throw e, this', w') ->
  cache this' = cache this /\ provider this' = provider this /\
  config this' = config this /\
  exists ts t, RateLimiter.requestTimestamps (rateLimiter this') = ts ++ [t]
               /\ (now w <= t)%Z.
Proof.
  unfold getEmbedding.
  destruct (truthy _); [done|].
  destruct (RateLimiter.throttle env fuel (rateLimiter this) w) as [[rl1 w1]|] eqn:Ht;
    [|done].
  apply throttle_appends in Ht as [Hle [ts Hts]].
  match goal with
  | |- context [let '(_, _) := ?d in _] => destruct d as [[value|e'] w2]
  end; [done|].
  intros [= <- <- <-]. cbn [cache provider config rateLimiter].
  repeat split. by exists ts, (now w1).
Qed.

Lemma getEmbedding_again_witness :
  exists this' w',
    getEmbedding digest (answering "") 1 (service_for "ollama") (mkWorld 0 0) "one"
      = Some (Return (Some vector), this', w') /\
    getEmbedding digest unreachable 0 this' (mkWorld 5000 7) "one"
      = Some (Return (Some vector), this', mkWorld 5000 7).
Proof.
  eexists _, _. split; [vm_compute; reflexivity|].
  eapply (getEmbedding_again digest (answering "") unreachable 1 0
           (service_for "ollama") _ (mkWorld 0 0) _ (mkWorld 5000 7) "one"
           (Some vector)); [vm_compute; reflexivity | reflexivity].
Defined.

Lemma getEmbedding_failure_witness :
  exists this' w',
    getEmbedding digest unreachable 1 (service_for "ollama") (mkWorld 0 0) "one"
      = Some (Throw FetchError, this', w') /\
    cache this' = EmbeddingCache.new 1000.
Proof.
  eexists _, _. split; [vm_compute; reflexivity|].
  eapply (getEmbedding_failure digest unreachable 1 (service_for "ollama") _
           (mkWorld 0 0) _ "one" FetchError). vm_compute. reflexivity.
Defined.
(** The scenario of the design document: the call for the third of five
    documents fails in transport. *)
Example third_of_five_fails :
  (fun b => (embedding <$> messagesWithEmbeddings b, id <$> messagesWithEmbeddings b,
             progress b))
    <$> generateEmbeddingsForMessages digest (answering "three") 2
          (service_for "ollama") (mkWorld 0 0) letters
  = Some ([Some vector; Some vector; null; Some vector; Some vector],
          [1; 2; 3; 4; 5]%Z,
          [(1, 5); (2, 5); (3, 5); (4, 5); (5, 5)]).
Proof. vm_compute. reflexivity. Qed.

(** A service just made is ready at any time. *)
Lemma service_for_ready (provider : string) (w : World) :
  ready (service_for provider) w.
Proof.
  repeat split; simpl; try lia; [vm_compute; discriminate|constructor].
Qed.

Lemma generateEmbeddings_every_message_witness :
  exists b,
    generateEmbeddingsForMessages digest (answering "three") 2
      (service_for "ollama") (mkWorld 0 0) letters = Some b /\
    length (messagesWithEmbeddings b) = 5 /\
    messagesWithEmbeddings b !! 0
    = Some (mkMessage 1 "subject" "2024-01-01T00:00:00Z" "sender@example.org"
              "one" (Some vector)) /\
    messagesWithEmbeddings b !! 2
    = Some (mkMessage 3 "subject" "2024-01-01T00:00:00Z" "sender@example.org"
              "three" null) /\
    progress b = [(1, 5); (2, 5); (3, 5); (4, 5); (5, 5)].
Proof.
  destruct (generateEmbeddings_every_message digest (answering "three") 0
              (service_for "ollama") (mkWorld 0 0) letters)
    as (b & Hb & _ & Hlen & Hentries & Hprog).
  { apply service_for_ready. }
  destruct (Hentries 0 (letter 1 "one") eq_refl) as (r0 & Hr0 & He0).
  destruct (Hentries 2 (letter 3 "three") eq_refl) as (r2 & Hr2 & He2).
  vm_compute in Hr0. injection Hr0 as <-.
  vm_compute in Hr2. injection Hr2 as <-.
  exists b. split; [exact Hb|]. split; [exact Hlen|].
  split; [exact He0|]. split; [exact He2|exact Hprog].
Defined.

Lemma zip_with_replicate_r_same {A B C : Type} (f : A -> B -> C) (l : list A) (y : B) :
  zip_with f l (replicate (length l) y) = (fun x => f x y) <$> l.
Proof. induction l as [|x l IH]; [done|]. simpl. by rewrite IH. Qed.

(** Every service the constructor returns is ready. *)
Lemma constructor_ready (settings : option Settings) (this : t) (w : World) :
  constructor settings = Return this -> ready this w.
Proof.
  destruct settings as [settings|]; [|done]. intros [= <-].
  repeat split; simpl; try lia; [vm_compute; discriminate|constructor].
Qed.

(** C3 fails: the constructor accepts the name [openai], and the batch
    made with that service gives every document the embedding [null]. *)
Lemma unsupported_provider_constructed :
  ~ rejected_at_construction (settings_for "openai") /\
  constructor (Some (settings_for "openai")) = Return (service_for "openai") /\
  (fun b => embedding <$> messagesWithEmbeddings b)
    <$> generateEmbeddingsForMessages digest (answering "") 2
          (service_for "openai") (mkWorld 0 0) letters
  = Some [null; null; null; null; null].
Proof.
  split; [|split].
  - unfold rejected_at_construction. vm_compute. discriminate.
  - reflexivity.
  - vm_compute. reflexivity.
Qed.

(** C3, amended: the constructor accepts a provider name that is neither
    of the two.  The error for it is thrown by each call of [getEmbedding],
    and [generateEmbeddingsForMessages] catches it like any other: the
    batch returns, with the embedding [null] for every document. *)
Theorem unsupported_provider_absorbed {E : Type} (settings : Settings)
    (getKey : string -> string) (env : Env) (fuel : nat) (w : World)
    (messages : list (Message E)) :
  let name := or_else (settings_provider settings) "ollama" in
  name <> "ollama" -> name <> "gemini" ->
  exists this b,
    constructor (Some settings) = Return this /\
    provider this = name /\
    outcomes getKey env (S (S fuel)) this w messages
      = replicate (length messages) (Throw (UnsupportedProvider name)) /\
    generateEmbeddingsForMessages getKey env (S (S fuel)) this w messages = Some b /\
    messagesWithEmbeddings b
    = (fun m => mkMessage (id m) (subject m) (date m) (from m) (body m) null)
        <$> messages.
Proof.
  intros name Ho Hg. cbn [constructor]. fold name.
  set (this := mk name _ _ _).
  assert (Hready : ready this w) by by apply (constructor_ready (Some settings)).
  destruct (each_message_spec getKey env fuel (length messages) messages 0
              (mkBatch [] [] this w) Hready)
    as (b & Hb & _ & _ & _ & Hout & _).
  pose proof (outcomes_unsupported getKey env fuel messages this w Ho Hg eq_refl Hready)
    as Houtcomes.
  cbn [service world messagesWithEmbeddings] in Hout.
  rewrite Houtcomes, app_nil_l, zip_with_replicate_r_same in Hout.
  exists this, b. repeat split; done.
Qed.

Lemma unsupported_provider_absorbed_witness :
  exists this b,
    constructor (Some (settings_for "openai")) = Return this /\
    generateEmbeddingsForMessages digest (answering "") 2 this (mkWorld 0 0) letters
      = Some b /\
    messagesWithEmbeddings b
    = (fun m => mkMessage (id m) "subject" "2024-01-01T00:00:00Z"
                  "sender@example.org" (body m) null) <$> letters.
Proof.
  destruct (unsupported_provider_absorbed (settings_for "openai") digest
              (answering "") 0 (mkWorld 0 0) letters)
    as (this & b & Hc & _ & _ & Hb & Hout).
  { simpl. discriminate. }
  { simpl. discriminate. }
  exists this, b. split; [exact Hc|]. split; [exact Hb|exact Hout].
Defined.

(** C9 fails: the local provider answers with success and the JSON object
    [{}].  The call returns [undefined] and throws nothing. *)
Lemma missing_vector_not_an_error :
  ~ local_call_fails (replying (JObject [])) (service_for "ollama") (mkWorld 0 0) "hello"
  /\ (getOllamaEmbedding (replying (JObject [])) (service_for "ollama")
        (mkWorld 0 0) "hello").1 = Return undefined.
Proof.
  split; [|reflexivity]. unfold local_call_fails. vm_compute. intros [].
Qed.

(** C9, amended: both providers throw when the request fails in transport,
    when the response is not a success, and when its body is not JSON (or
    is the JSON value [null]); the local provider then throws the status
    with the body of the response.  A successful response whose JSON
    object has no vector is not an error for the local provider: the call
    returns [undefined]. *)
Theorem provider_failures (env : Env) (this : t) (w : World) (text : string)
    (result : FetchResult) :
  (forall k request, respond env k request = result) ->
  let local := (getOllamaEmbedding env this w text).1 in
  let cloud := (getGeminiEmbedding env this w text).1 in
  (result = Rejected -> is_Throw local /\ is_Throw cloud) /\
  (forall response, result = Responded response -> ok response = false ->
     is_Throw local /\ is_Throw cloud /\
     (is_Some (config this) ->
      local = Throw (OllamaApiError (status response) (response_text response)))) /\
  (forall response, result = Responded response ->
     json response = None \/ json response = Some JNull ->
     is_Throw local /\ is_Throw cloud) /\
  (forall response members, result = Responded response -> ok response = true ->
     json response = Some (JObject members) -> is_Some (config this) ->
     local = Return (member "embedding" members) /\
     (member "embedding" members = undefined -> local = Return undefined)).
Proof.
  intros Henv local cloud. subst local cloud.
  unfold getOllamaEmbedding, getGeminiEmbedding, fetch.
  destruct (config this) as [c|]; [destruct (apiKey c) as [[|a key]|]|];
    cbn [fst]; rewrite ?Henv.
  all: split; [|split; [|split]].
  all: try (intros ->; by split).
  all: try (intros response -> Hok; rewrite Hok; cbn [negb fst];
            split; [done|]; split; [by repeat case_match|]; done).
  all: try (intros response -> [Hjson|Hjson]; rewrite Hjson;
            split; by repeat case_match).
  all: try (intros response members -> Hok Hjson Hc; rewrite Hok, Hjson;
            cbn [negb fst property]; split; [done|]; by intros ->).
  all: try (intros response _ _; split; [done|]; split; [done|]; by intros [? [=]]).
  all: try (intros response _ _; by split).
  all: intros response members _ _ _ [? [=]].
Qed.

Lemma provider_failures_witness :
  is_Throw (getOllamaEmbedding unreachable (service_for "ollama")
              (mkWorld 0 0) "hello").1.
Proof.
  pose proof (provider_failures unreachable (service_for "ollama")
                (mkWorld 0 0) "hello" Rejected (fun _ _ => eq_refl)) as [H _].
  exact (proj1 (H eq_refl)).
Defined.
End ServiceFacts.

(** ** Escaping for the report *)

Module CollatorFacts.
Import EmailCollator.

Lemma append_cons (x : ascii) (s1 s2 : string) :
  String x s1 +:+ s2 = String x (s1 +:+ s2).
Proof. reflexivity. Qed.

Lemma append_assoc (s1 s2 s3 : string) : (s1 +:+ s2) +:+ s3 = s1 +:+ (s2 +:+ s3).
Proof. induction s1 as [|x s1 IH]; [done|]. by rewrite !append_cons, IH. Qed.

Lemma chars_app (s1 s2 : string) : chars (s1 +:+ s2) = chars s1 ++ chars s2.
Proof.
  induction s1 as [|x s1 IH]; [done|]. rewrite append_cons. cbn. by rewrite IH.
Qed.

Lemma replace_all_app (c : ascii) (r s1 s2 : string) :
  replace_all c r (s1 +:+ s2) = replace_all c r s1 +:+ replace_all c r s2.
Proof.
  induction s1 as [|x s1 IH]; [done|]. rewrite append_cons. cbn [replace_all].
  destruct (Ascii.eqb x c); rewrite IH; [by rewrite append_assoc|done].
Qed.

Lemma escapeHtml_app (s1 s2 : string) :
  escapeHtml (s1 +:+ s2) = escapeHtml s1 +:+ escapeHtml s2.
Proof. unfold escapeHtml. by rewrite !replace_all_app. Qed.

Lemma escapeHtml_one (x : ascii) : escapeHtml (String x EmptyString) = entity x.
Proof. destruct x as [[] [] [] [] [] [] [] []]; reflexivity. Qed.

Lemma escapeHtml_cons (x : ascii) (str : string) :
  escapeHtml (String x str) = entity x +:+ escapeHtml str.
Proof.
  change (String x str) with (String x EmptyString +:+ str).
  by rewrite escapeHtml_app, escapeHtml_one.
Qed.

Lemma entity_cases (x : ascii) :
  x = "&"%char \/ x = "<"%char \/ x = ">"%char \/ x = quote \/ x = "'"%char \/
  (~ special x /\ entity x = String x EmptyString).
Proof.
  unfold special, quote.
  destruct x as [[] [] [] [] [] [] [] []];
    first [ by left | by right; left | by right; right; left
          | by right; right; right; left | by right; right; right; right; left
          | right; right; right; right; right;
            split; [intros [?|[?|[?|[?|?]]]]; discriminate | reflexivity] ].
Qed.

(** [escapeHtml] replaces each character on its own: the [&] of an entity
    it writes is not replaced again, and a string without the five
    characters is returned as it is. *)
Theorem escapeHtml_each_character (str : string) :
  escapeHtml str = foldr (fun x out => entity x +:+ out) EmptyString (chars str) /\
  (Forall (fun x => ~ special x) (chars str) -> escapeHtml str = str).
Proof.
  split.
  - induction str as [|x str IH]; [done|]. rewrite escapeHtml_cons, IH. done.
  - induction str as [|x str IH]; [done|]. simpl. intros [Hx Hstr]%Forall_cons.
    rewrite escapeHtml_cons, IH by done.
    destruct (entity_cases x) as [->|[->|[->|[->|[->|[_ ->]]]]]];
      first [done | destruct Hx; unfold special; tauto].
Qed.

(** The result of [escapeHtml] holds no [<], [>], double quote or
    apostrophe. *)
Theorem escapeHtml_no_markup (str : string) :
  Forall (fun c => c <> "<"%char /\ c <> ">"%char /\ c <> quote /\ c <> "'"%char)
         (chars (escapeHtml str)).
Proof.
  induction str as [|x str IH]; [constructor|].
  rewrite escapeHtml_cons, chars_app. apply Forall_app. split; [|done].
  destruct (entity_cases x) as [->|[->|[->|[->|[->|[Hx ->]]]]]];
    try (unfold quote; repeat constructor; discriminate).
  simpl. apply Forall_cons. split; [|constructor]. unfold special in Hx. tauto.
Qed.

(** [escapeHtml] loses nothing: two strings with the same result are the
    same string. *)
Theorem escapeHtml_injective (s1 s2 : string) :
  escapeHtml s1 = escapeHtml s2 -> s1 = s2.
Proof.
  revert s2. induction s1 as [|x s1 IH]; intros [|y s2]; rewrite ?escapeHtml_cons.
  - done.
  - destruct (entity_cases y) as [->|[->|[->|[->|[->|[_ ->]]]]]]; discriminate.
  - destruct (entity_cases x) as [->|[->|[->|[->|[->|[_ ->]]]]]]; discriminate.
  - destruct (entity_cases x) as [->|[->|[->|[->|[->|[Hx ->]]]]]];
      destruct (entity_cases y) as [->|[->|[->|[->|[->|[Hy ->]]]]]];
      unfold quote, special in *; cbn; intros H;
      try discriminate;
      try (injection H as H; f_equal; by apply IH);
      try (injection H as -> _; tauto);
      try (injection H as <- _; tauto).
    injection H as -> H. f_equal. by apply IH.
Qed.


Lemma escapeHtml_each_character_witness :
  escapeHtml "plain text, 100%" = "plain text, 100%".
Proof.
  apply (proj2 (escapeHtml_each_character "plain text, 100%")).
  repeat constructor; unfold special, quote; intros [?|[?|[?|[?|?]]]]; discriminate.
Defined.

(** A tag with an attribute and an ampersand. *)
Example escapeHtml_sample :
  escapeHtml "<a href='x'>T&C</a>" = "&lt;a href=&#039;x&#039;&gt;T&amp;C&lt;/a&gt;".
Proof. reflexivity. Qed.

Lemma escapeHtml_injective_witness : "a<b" = "a<b".
Proof. apply escapeHtml_injective. reflexivity. Defined.
End CollatorFacts.

(** ** Stored settings *)

Module StorageFacts.
Import StorageManager.

Lemma member_map_set (k key : string) (value : JSON) (o : Object) :
  EmbeddingService.member k (EmbeddingCache.map_set key value o)
  = if decide (k = key) then Some value else EmbeddingService.member k o.
Proof.
  induction o as [|[k' v'] o IH]; simpl.
  - destruct (decide (k = key)); done.
  - destruct (decide (key = k')) as [->|Hne]; simpl.
    + destruct (decide (k = k')); done.
    + destruct (decide (k = k')) as [->|Hk].
      * by rewrite decide_False.
      * apply IH.
Qed.

Lemma member_absent (k : string) (o : Object) :
  k ∉ o.*1 -> EmbeddingService.member k o = None.
Proof.
  induction o as [|[k' v'] o IH]; simpl; [done|]. intros Hin.
  rewrite decide_False; [apply IH|]; intros ?; apply Hin; subst; by constructor.
Qed.

Lemma member_spread (k : string) (a b : Object) :
  NoDup b.*1 ->
  EmbeddingService.member k (spread a b)
  = match EmbeddingService.member k b with
    | Some v => Some v
    | None => EmbeddingService.member k a
    end.
Proof.
  unfold spread. revert a. induction b as [|[key value] b IH]; intros a Hnd; [done|].
  simpl in Hnd. apply NoDup_cons in Hnd as [Hkey Hnd].
  simpl. rewrite IH by done. rewrite member_map_set.
  destruct (decide (k = key)) as [->|Hne]; [|done].
  by rewrite member_absent.
Qed.

(** [getSettings] reads every name from the stored object when it is
    there and from the defaults otherwise: the merge is by top-level name,
    so a stored [ollama] or [gemini] object replaces the default one whole.
    With nothing stored the defaults are returned.  When reading the
    storage fails the promise is rejected with a [ReferenceError]: the
    defaults are not returned. *)
Theorem getSettings_merge :
  (forall stored k, NoDup stored.*1 ->
     exists settings,
       getSettings (ReadResolved (Some stored)) = Resolved settings /\
       EmbeddingService.member k settings
       = match EmbeddingService.member k stored with
         | Some v => Some v
         | None => EmbeddingService.member k defaults
         end) /\
  getSettings (ReadResolved None) = Resolved defaults /\
  getSettings ReadRejected = ReferenceError.
Proof.
  split; [|done]. intros stored k Hnd. eexists. split; [done|].
  by apply member_spread.
Qed.

(** Only the endpoint of the local provider is stored: the model of the
    defaults is gone from the merged settings. *)
Lemma getSettings_merge_witness :
  exists settings,
    getSettings (ReadResolved (Some [("ollama", JObject [("endpoint", JString "http://gpu:11434")])]))
      = Resolved settings /\
    EmbeddingService.member "ollama" settings
      = Some (JObject [("endpoint", JString "http://gpu:11434")]) /\
    EmbeddingService.member "provider" settings = Some (JString "ollama").
Proof.
  destruct (proj1 getSettings_merge
              [("ollama", JObject [("endpoint", JString "http://gpu:11434")])] "ollama")
    as (settings & Hs & Hm).
  { apply (bool_decide_unpack _). vm_compute. exact I. }
  exists settings. split; [exact Hs|]. split; [exact Hm|].
  vm_compute in Hs. injection Hs as <-. reflexivity.
Defined.

End StorageFacts.

(** ** Progress listeners *)

Module ReporterFacts.
Import ProgressReporter.

Lemma called_report_to {Status : Type} (throws : nat -> Status -> bool)
    (ls : list nat) (status : Status) :
  called (report_to throws ls status) = (fun l => (l, status)) <$> ls /\
  caught (report_to throws ls status) = filter (fun l => throws l status = true) ls.
Proof.
  induction ls as [|l ls [IH1 IH2]]; [done|]. simpl. rewrite IH1, IH2, filter_cons.
  split; [done|].
  destruct (throws l status); [rewrite decide_True by done|rewrite decide_False by done];
    done.
Qed.

Lemma listeners_NoDup (calls : list Call) : NoDup (listeners (after_calls calls)).
Proof.
  induction calls as [|c calls IH] using rev_ind; [apply NoDup_nil_2|].
  unfold after_calls. rewrite foldl_app. simpl. fold (after_calls calls).
  destruct c as [l|l]; simpl.
  - unfold addListener. case_bool_decide as Hin; [done|]. simpl.
    apply NoDup_app. split; [done|]. split; [|apply NoDup_singleton].
    intros x Hx ->%list_elem_of_singleton. done.
  - by apply NoDup_filter.
Qed.

Lemma listeners_registered (calls : list Call) (l : nat) :
  l ∈ listeners (after_calls calls) <-> registered calls l = true.
Proof.
  induction calls as [|c calls IH] using rev_ind.
  { simpl. split; [by intros ?%elem_of_nil|done]. }
  unfold after_calls, registered. rewrite !foldl_app. simpl.
  fold (after_calls calls). fold (registered calls l).
  destruct c as [l'|l']; simpl.
  - unfold addListener. case_bool_decide as Hin; case_bool_decide as Heq; subst; simpl.
    + tauto.
    + done.
    + split; [done|]. intros _. apply elem_of_app. right. by constructor.
    + rewrite elem_of_app, list_elem_of_singleton, IH.
      split; [intros [?|?]; [done|congruence]|by left].
  - rewrite list_elem_of_filter, IH. case_bool_decide as Heq.
    + split; [intros [? _]; congruence|done].
    + split; [by intros [_ ?]|]. intros ?. split; [congruence|done].
Qed.

Lemma count_NoDup (ls : list nat) (l : nat) :
  NoDup ls ->
  length (filter (fun x => x = l) ls) = if bool_decide (l ∈ ls) then 1 else 0.
Proof.
  induction 1 as [|x ls Hx _ IH]; [done|]. rewrite filter_cons.
  destruct (decide (x = l)) as [->|Hne]; simpl.
  - rewrite bool_decide_eq_true_2 by by left.
    rewrite bool_decide_eq_false_2 in IH by done. by rewrite IH.
  - rewrite IH. repeat case_bool_decide; try done.
    + exfalso. match goal with H : ~ _ |- _ => apply H end. by right.
    + match goal with H : _ ∈ _ :: _ |- _ => apply elem_of_cons in H as [->|?] end; done.
Qed.

(** After any calls of [addListener] and [removeListener], [report] calls
    each listener whose last call added it exactly once, whether or not any
    listener throws, and calls no other listener; the errors it catches are
    those of the listeners that throw. *)
Theorem report_reaches_registered {Status : Type} (throws : nat -> Status -> bool)
    (calls : list Call) (status : Status) (l : nat) :
  let r := report throws (after_calls calls) status in
  length (filter (fun c => c.1 = l) (called r))
    = (if registered calls l then 1 else 0) /\
  Forall (fun c => c.2 = status) (called r) /\
  (l ∈ caught r <-> registered calls l = true /\ throws l status = true).
Proof.
  intros r. unfold r, report.
  destruct (called_report_to throws (listeners (after_calls calls)) status) as [-> ->].
  split; [|split].
  - set (ls := listeners (after_calls calls)).
    assert (Hcount : length (filter (fun c : nat * Status => c.1 = l)
                               ((fun l0 => (l0, status)) <$> ls))
                     = length (filter (fun x => x = l) ls)).
    { induction ls as [|x ls IH]; [done|]. rewrite fmap_cons, !filter_cons. simpl.
      destruct (decide (x = l)); simpl; by rewrite IH. }
    rewrite Hcount, count_NoDup by apply listeners_NoDup.
    pose proof (listeners_registered calls l) as Hreg. fold ls in Hreg.
    destruct (registered calls l); case_bool_decide as Hin; try done.
    + destruct Hin. by apply Hreg.
    + by apply Hreg in Hin.
  - apply Forall_fmap, Forall_forall. done.
  - rewrite list_elem_of_filter, listeners_registered. tauto.
Qed.

(** Three listeners; the first is removed again and the second throws. *)
Example report_sample :
  let r := report (fun l _ => bool_decide (l = 2))
                  (after_calls [Add 1; Add 2; Add 2; Add 3; Remove 1]) "done" in
  called r = [(2, "done"); (3, "done")] /\ caught r = [2].
Proof. split; reflexivity. Qed.

End ReporterFacts.
